(** * Quicksort benchmark ([riscv_tests/qsort/qsort_main.c])

    A shallow embedding of the iterative hybrid quicksort of the benchmark
    (median-of-three pivot, explicit pointer stack, insertion sort on short
    subarrays) together with the proofs of its specification.

    Conventions of the embedding.
    - A pointer [p] into [arr] is the integer offset [p - arr]; [*p] is the
      cell at that offset, [p[-1]] the cell before it.  The source keeps
      [l] and [ir] one past the cells they denote ([l = arr+1], [ir = arr+n]),
      so the working subarray [l-1 .. ir-1] has [ir - l + 1] cells.
    - [type] is a macro of the source ([#define type int]).  The code only
      copies elements and compares them with [<] and [>], so the element
      type is kept abstract with an integer [key]; at [type = int] the
      element is its own key ([int_key]).  This is what lets stability be
      stated.
    - A read or write outside the array, a store outside [stack], and a read
      of a stack slot that was never written are undefined behaviour in C:
      the embedding yields [None] there.  Loops carry fuel; running out of
      fuel yields [None] as well, and that a run returns is always proved
      as such: enough fuel gives [Some].
    - Pointer differences are modelled in [Z] without wrap-around: they are
      bounded by twice the array length, which fits [ptrdiff_t] for any
      array the target can hold. *)

From stdpp Require Import base numbers list sorting.
From Stdlib Require Import ZArith Lia.

Local Open Scope Z_scope.

(** ** Constants of the source *)

Definition INSERTION_THRESHOLD : Z := 10.
Definition NSTACK : nat := 50.

(** ** Memory: the array with a log of the offsets accessed *)

Section Memory.
Context {T : Type}.

Record mem := Mem { cells : list T; accessed : list Z }.

Definition M (A : Type) : Type := mem → option (A * mem).

#[export] Instance M_ret : MRet M := λ A x m, Some (x, m).

#[export] Instance M_bind : MBind M :=
  λ A B k c m, match c m with
               | Some (x, m') => k x m'
               | None => None
               end.

Definition fail {A} : M A := λ _, None.

Definition rd (a : list T) (p : Z) : option T :=
  if p <? 0 then None else a !! Z.to_nat p.

Definition wr (a : list T) (p : Z) (v : T) : option (list T) :=
  if (0 <=? p) && (p <? Z.of_nat (length a))
  then Some (<[Z.to_nat p := v]> a) else None.

(** [*p] as an rvalue. *)
Definition load (p : Z) : M T :=
  λ m, match rd (cells m) p with
       | Some v => Some (v, Mem (cells m) (p :: accessed m))
       | None => None
       end.

(** [*p = v]. *)
Definition store (p : Z) (v : T) : M unit :=
  λ m, match wr (cells m) p v with
       | Some a => Some (tt, Mem a (p :: accessed m))
       | None => None
       end.

(** The number of cells, used only to give the inner loops their fuel. *)
Definition size : M nat := λ m, Some (length (cells m), m).

(** Run a computation on an array with an empty log. *)
Definition run {A} (c : M A) (a : list T) : option (A * mem) := c (Mem a []).
End Memory.

Arguments mem : clear implicits.
Arguments M : clear implicits.

Section Quicksort.
Context {T : Type} (key : T → Z).

Local Abbreviation M := (M T).

(** ** Swap macros *)

(** [SWAP(a,b)]: [temp=(a); (a)=(b); (b)=temp]. *)
Definition SWAP (p q : Z) : M unit :=
  temp ← load p;
  y ← load q;
  store p y;;
  store q temp.

(** [SWAP_IF_GREATER(a,b)]: [if ((a) > (b)) SWAP(a,b)]. *)
Definition SWAP_IF_GREATER (p q : Z) : M unit :=
  x ← load p;
  y ← load q;
  if key y <? key x then SWAP p q else mret tt.

(** ** insertion_sort *)

(** [while (value < *(j-1)) { *j = *(j-1); if (--j == arr) break; }],
    returning the final [j]. *)
Fixpoint shift_loop (fuel : nat) (arr : Z) (value : T) (j : Z) : M Z :=
  match fuel with
  | O => fail
  | S fuel' =>
      x ← load (j - 1);
      if key value <? key x then
        y ← load (j - 1);
        store j y;;
        if j - 1 =? arr then mret (j - 1)
        else shift_loop fuel' arr value (j - 1)
      else mret j
  end.

(** [for (i = arr+1; i < arr+n; i++) { ... }] from a given [i]. *)
Fixpoint insertion_loop (fuel : nat) (n arr : Z) (i : Z) : M unit :=
  match fuel with
  | O => fail
  | S fuel' =>
      if i <? arr + n then
        value ← load i;
        j ← shift_loop (Z.to_nat (i - arr)) arr value i;
        store j value;;
        insertion_loop fuel' n arr (i + 1)
      else mret tt
  end.

(** [n] is a [size_t]: a negative count cannot be passed (converted, it
    would denote more cells than any array has), so the embedding leaves
    that case undefined. *)
Definition insertion_sort (n : Z) (arr : Z) : M unit :=
  if n <? 0 then fail
  else insertion_loop (S (Z.to_nat n)) n arr (arr + 1).

(** ** selection_sort *)

(** [for (type* j = i+1; j < arr+n; j++) SWAP_IF_GREATER( *i, *j );] from a
    given [j]. *)
Fixpoint selection_inner (fuel : nat) (n arr i j : Z) : M unit :=
  match fuel with
  | O => fail
  | S fuel' =>
      if j <? arr + n then
        SWAP_IF_GREATER i j;;
        selection_inner fuel' n arr i (j + 1)
      else mret tt
  end.

(** [for (type* i = arr; i < arr+n-1; i++) ...] from a given [i]. *)
Fixpoint selection_outer (fuel : nat) (n arr i : Z) : M unit :=
  match fuel with
  | O => fail
  | S fuel' =>
      if i <? arr + n - 1 then
        selection_inner (S (Z.to_nat n)) n arr i (i + 1);;
        selection_outer fuel' n arr (i + 1)
      else mret tt
  end.

(** [n] is a [size_t], as for [insertion_sort].  The loop bound [arr+n-1]
    is a pointer: with [n = 0] at the very start of the array it would
    point before the array, which C leaves undefined. *)
Definition selection_sort (n : Z) (arr : Z) : M unit :=
  if (n <? 0) || (arr + n - 1 <? 0) then fail
  else selection_outer (S (Z.to_nat n)) n arr arr.

(** ** Median of three *)

(** Lines 93-96 of the source.  [/] on [ptrdiff_t] truncates. *)
Definition median3 (l ir : Z) : M unit :=
  SWAP (Z.quot (l + ir) 2 - 1) l;;
  SWAP_IF_GREATER (l - 1) (ir - 1);;
  SWAP_IF_GREATER l (ir - 1);;
  SWAP_IF_GREATER (l - 1) l.

(** ** Partition scan *)

(** [while ( *i++ < a );], returning the final [i]. *)
Fixpoint scan_up (fuel : nat) (a : T) (i : Z) : M Z :=
  match fuel with
  | O => fail
  | S fuel' =>
      x ← load i;
      if key x <? key a then scan_up fuel' a (i + 1) else mret (i + 1)
  end.

(** [while ( *(j-- - 2) > a );], returning the final [j]. *)
Fixpoint scan_down (fuel : nat) (a : T) (j : Z) : M Z :=
  match fuel with
  | O => fail
  | S fuel' =>
      x ← load (j - 2);
      if key a <? key x then scan_down fuel' a (j - 1) else mret (j - 1)
  end.

(** The innermost [for (;;)] loop, returning the final [(i, j)]. *)
Fixpoint partition_loop (fuel : nat) (a : T) (i j : Z) : M (Z * Z) :=
  match fuel with
  | O => fail
  | S fuel' =>
      sz ← size;
      i' ← scan_up (S sz) a i;
      j' ← scan_down (S sz) a j;
      if j' <? i' then mret (i', j')
      else SWAP (i' - 1) (j' - 1);; partition_loop fuel' a i' j'
  end.

(** Lines 99-114 of the source once the partitioning element [a] is
    known: cursors [i = l+1] and [j = ir], the scan, and the insertion of
    the partitioning element ([l[0] = j[-1]; j[-1] = a]). *)
Definition partition_with (a : T) (l ir : Z) : M (Z * Z) :=
  sz ← size;
  '(i, j) ← partition_loop (S sz) a (l + 1) ir;
  x ← load (j - 1);
  store l x;;
  store (j - 1) a;;
  mret (i, j).

(** Lines 99-114 of the source, with [type a = l[0]]. *)
Definition partition_scan (l ir : Z) : M (Z * Z) :=
  a ← load l;
  partition_with a l ir.

(** ** The pointer stack *)

(** [stack[k]] is [None] until it is first written. *)
Definition stack_rd (st : list (option Z)) (p : Z) : option Z :=
  if p <? 0 then None else mjoin (st !! Z.to_nat p).

Definition stack_wr (st : list (option Z)) (p : Z) (v : Z)
  : option (list (option Z)) :=
  if (0 <=? p) && (p <? Z.of_nat (length st))
  then Some (<[Z.to_nat p := Some v]> st) else None.

(** ** sort *)

Record state := State {
  arr : list T;
  ir : Z;
  l : Z;
  stack : list (option Z);
  stackp : Z
}.

Inductive event := Insertion | Pop | Partition | Push.

Inductive outcome :=
| Break (a : list T)
| Continue (s : state).

(** The initial state of [sort(n, arr)]. *)
Definition sort_init (n : Z) (a : list T) : state :=
  {| arr := a; ir := n; l := 1; stack := replicate NSTACK None; stackp := 0 |}.

(** One iteration of the outer [for (;;)]. *)
Definition sort_step (s : state) : option (outcome * list event) :=
  if ir s - l s <? INSERTION_THRESHOLD then
    match run (insertion_sort (ir s - l s + 1) (l s - 1)) (arr s) with
    | None => None
    | Some (_, m) =>
        if stackp s =? 0 then Some (Break (cells m), [Insertion])
        else
          ir' ← stack_rd (stack s) (stackp s);
          l' ← stack_rd (stack s) (stackp s - 1);
          Some (Continue {| arr := cells m; ir := ir'; l := l';
                            stack := stack s; stackp := stackp s - 2 |},
                [Insertion; Pop])
    end
  else
    match run (median3 (l s) (ir s);; partition_scan (l s) (ir s)) (arr s) with
    | None => None
    | Some ((i, j), m) =>
        let stackp' := stackp s + 2 in
        if j - l s <=? ir s - i + 1 then
          st1 ← stack_wr (stack s) stackp' (ir s);
          st2 ← stack_wr st1 (stackp' - 1) i;
          Some (Continue {| arr := cells m; ir := j - 1; l := l s;
                            stack := st2; stackp := stackp' |},
                [Partition; Push])
        else
          st1 ← stack_wr (stack s) stackp' (j - 1);
          st2 ← stack_wr st1 (stackp' - 1) (l s);
          Some (Continue {| arr := cells m; ir := ir s; l := i;
                            stack := st2; stackp := stackp' |},
                [Partition; Push])
    end.

(** The outer loop, collecting the events of every iteration. *)
Fixpoint sort_loop (fuel : nat) (s : state) : option (list T * list event) :=
  match fuel with
  | O => None
  | S fuel' =>
      match sort_step s with
      | None => None
      | Some (Break a, ev) => Some (a, ev)
      | Some (Continue s', ev) =>
          '(a, evs) ← sort_loop fuel' s'; Some (a, ev ++ evs)
      end
  end.

(** The state after [k] iterations, when there is one. *)
Fixpoint sort_reach (k : nat) (s : state) : option state :=
  match k with
  | O => Some s
  | S k' =>
      match sort_step s with
      | Some (Continue s', _) => sort_reach k' s'
      | _ => None
      end
  end.

Definition sort (fuel : nat) (n : Z) (a : list T) : option (list T * list event) :=
  sort_loop fuel (sort_init n a).

End Quicksort.

Arguments state : clear implicits.
Arguments outcome : clear implicits.

(** [type = int]: an element is its own key. *)
Definition int_key (x : Z) : Z := x.

(** ** Sample runs at [type = int] *)

Definition sample : list Z := [5; 3; 3; 1; 4; 1; 9; 8; 7; 6; 2; 0].

Definition sample_equal : list Z := [7; 7; 7; 7; 7; 7; 7; 7; 7; 7; 7; 7].

Definition sample_prepared : list Z := [1; 5; 3; 9; 4; 1; 8; 7; 6; 2; 5; 9].

Definition sample_ten : list Z := [9; 8; 7; 6; 5; 4; 3; 2; 1; 0].

(** The state after the first iteration of [sort(12, sample)]. *)
Definition sample_pushed : state Z :=
  Eval vm_compute in
    match sort_step int_key (sort_init 12 sample) with
    | Some (Continue s, _) => s
    | _ => sort_init 12 sample
    end.


(** * Cycle statistics ([stats.c])

    [setStats] brackets a benchmark run: called with a non-zero argument it
    records the hardware cycle counter, called with zero it reads the
    counter again and derives the cycles elapsed.  The counter and every
    variable are [unsigned int], 32 bits wide on the target: each
    arithmetic result is reduced modulo [2^32].  The read of the counter is
    an input of the embedding, the console calls are its output. *)

Definition wrap32 (x : Z) : Z := x mod 2 ^ 32.

Inductive console :=
| UartInit
| Started
| Finished
| CyclesElapsed (v : Z)
| TimeElapsed (v : Z).

(** [riscv_tests/memcpy/stats.c].  [CLOCK_SPEED_MHZ] is a macro of a header
    that is not part of the sources: it is a parameter (a positive integer
    in every theorem), and a division by zero is undefined. *)
Module MemcpyStats.

Definition setStats (CLOCK_SPEED_MHZ : Z) (enable : Z) (counter : Z)
    (start_cycles : Z) : option (Z * list console) :=
  if enable =? 0 then
    let end_cycles := counter in
    let elapsed :=
      if start_cycles <=? end_cycles then wrap32 (end_cycles - start_cycles)
      else wrap32 (wrap32 (wrap32 (4294967295 - start_cycles) + 1) + end_cycles) in
    if CLOCK_SPEED_MHZ =? 0 then None
    else
      let time_us := elapsed / CLOCK_SPEED_MHZ in
      Some (start_cycles, [Finished; CyclesElapsed elapsed; TimeElapsed time_us])
  else
    Some (counter, [UartInit; Started]).

End MemcpyStats.

(** [dhrystone/stats.c]: the same arithmetic on the globals of [stats.h];
    nothing is divided and only the two banners are printed. *)
Module DhrystoneStats.

Record globals := Globals {
  start_cycles : Z;
  elapsed_cycles : Z;
  end_cycles : Z
}.

Definition setStats (enable : Z) (counter : Z) (g : globals)
    : globals * list console :=
  if enable =? 0 then
    let g1 := {| start_cycles := start_cycles g;
                 elapsed_cycles := elapsed_cycles g;
                 end_cycles := counter |} in
    let elapsed :=
      if start_cycles g1 <=? end_cycles g1
      then wrap32 (end_cycles g1 - start_cycles g1)
      else wrap32 (wrap32 (wrap32 (4294967295 - start_cycles g1) + 1)
                   + end_cycles g1) in
    ({| start_cycles := start_cycles g1;
        elapsed_cycles := elapsed;
        end_cycles := end_cycles g1 |}, [Finished])
  else
    ({| start_cycles := counter;
        elapsed_cycles := elapsed_cycles g;
        end_cycles := end_cycles g |}, [Started]).

End DhrystoneStats.

(** * Specification vocabulary *)

Section Specification.
Context {T : Type} (key : T → Z).

(** The order the code compares elements by. *)
Definition key_le (x y : T) : Prop := key x ≤ key y.

(** [a[i] <= a[j]] for all [i < j]. *)
Definition nondescending (a : list T) : Prop :=
  ∀ (i j : nat) x y,
    (i < j)%nat → a !! i = Some x → a !! j = Some y → key x ≤ key y.

(** Elements that compare equal occur in [b] in the order they have in
    [a]. *)
Definition equals_keep_order (a b : list T) : Prop :=
  ∀ k : Z, filter (λ x, key x = k) b = filter (λ x, key x = k) a.

(** The middle one of three keys. *)
Definition median_key (x y z : Z) : Z :=
  Z.max (Z.min x y) (Z.min (Z.max x y) z).

(** Every cell at an offset in [lo .. hi] satisfies [P]. *)
Definition all_cells (P : T → Prop) (a : list T) (lo hi : Z) : Prop :=
  ∀ k v, lo ≤ k ≤ hi → rd a k = Some v → P v.

(** [a'] is [a] with the cells at [p] and [q] exchanged. *)
Definition swapped (a a' : list T) (p q : Z) : Prop :=
  ∃ x y,
    rd a p = Some x ∧ rd a q = Some y ∧ length a' = length a ∧
    ∀ k, rd a' k = if decide (k = q) then Some x
                   else if decide (k = p) then Some y else rd a k.

(** [a'] is [a] with the cells at offsets [lo .. hi] rearranged among
    themselves and every other cell untouched. *)
Definition rearranged (lo hi : Z) (a a' : list T) : Prop :=
  length a' = length a ∧
  a' ≡ₚ a ∧
  (∀ k, k < lo ∨ hi < k → rd a' k = rd a k) ∧
  (∀ k v, lo ≤ k ≤ hi → rd a' k = Some v →
          ∃ k', lo ≤ k' ≤ hi ∧ rd a k' = Some v).

(** What holds at the head of the innermost loop of the partition: the
    pivot [a] sits at [l], the cells from [l] up to the upward cursor are
    not above it, the cells from the downward cursor up to [ir-1] are not
    below it. *)
Definition scan_inv (a : T) (l ir i j : Z) (c : list T) : Prop :=
  0 ≤ l ∧ ir ≤ Z.of_nat (length c) ∧
  l + 1 ≤ i ∧ i ≤ j ∧ i ≤ ir - 1 ∧ l + 2 ≤ j ∧ j ≤ ir ∧
  rd c l = Some a ∧
  all_cells (λ v, key v ≤ key a) c l (i - 1) ∧
  all_cells (λ v, key a ≤ key v) c (j - 1) (ir - 1).

(** What the partition establishes around the final cursors [i] and [j]
    (cells [l .. j-2] not above the pivot, cells [j-1 .. i-2] equal to it,
    cells [i-1 .. ir-1] not below it). *)
Definition partitioned (a : T) (lo ir i j : Z) (c : list T) : Prop :=
  all_cells (λ v, key v ≤ key a) c lo (j - 2) ∧
  all_cells (λ v, key v = key a) c (j - 1) (i - 2) ∧
  all_cells (λ v, key a ≤ key v) c (i - 1) (ir - 1).

(** Between [m] and [m'] only offsets in [lo .. hi] were accessed. *)
Definition log_within (lo hi : Z) (m m' : mem T) : Prop :=
  ∃ t, accessed m' = t ++ accessed m ∧ Forall (λ k, lo ≤ k ≤ hi) t.
End Specification.

(** * The invariant of the outer loop *)

Section Invariant.
Context {T : Type} (key : T → Z).

(** Offset [c] is a cut of [a]: no cell before [c] has a key above that
    of a cell at or after [c]. *)
Definition cut (a : list T) (c : Z) : Prop :=
  ∀ x y vx vy,
    x < c ≤ y → rd a x = Some vx → rd a y = Some vy → key vx ≤ key vy.

(** A pending subarray is the pointer pair [(l, ir)] the source keeps for
    it: the cells [l-1 .. ir-1]. *)
Definition apart (s1 s2 : Z * Z) : Prop :=
  s1.2 < s2.1 ∨ s2.2 < s1.1.

Fixpoint separated (segs : list (Z * Z)) : Prop :=
  match segs with
  | [] => True
  | sg :: rest => Forall (apart sg) rest ∧ separated rest
  end.

(** Offset [c] lies strictly inside the subarray: it is neither its first
    offset nor the one past its last. *)
Definition inside (c : Z) (sg : Z * Z) : Prop := sg.1 ≤ c < sg.2.

(** The pairs of [pend] (top first) are what slots [1 ..] of [stack]
    hold. *)
Fixpoint stack_holds (st : list (option Z)) (pend : list (Z * Z)) : Prop :=
  match pend with
  | [] => True
  | (pl, pr) :: rest =>
      st !! (2 * length rest + 1)%nat = Some (Some pl) ∧
      st !! (2 * length rest + 2)%nat = Some (Some pr) ∧
      stack_holds st rest
  end.

(** A partition of [m] cells leaves two parts of at most [m - 1] cells
    together, and the loop goes on with the smaller: a part of [m'] cells
    with [2 * (m' + 1) <= m + 1].  So a working subarray of [m] cells with
    [k] pairs below it satisfies [(m + 1) * 2^k <= n + 1], and a pair with
    [k] pairs below it was pushed while such a subarray, of more than
    [INSERTION_THRESHOLD] cells, was being partitioned. *)
Fixpoint depth_ok (n : Z) (pend : list (Z * Z)) : Prop :=
  match pend with
  | [] => True
  | (pl, pr) :: rest =>
      (INSERTION_THRESHOLD + 2) * 2 ^ Z.of_nat (length rest) ≤ n + 1 ∧
      (pr - pl + 2) * 2 ^ Z.of_nat (length rest) ≤ n + 1 ∧
      depth_ok n rest
  end.

(** The stack has room for [(NSTACK - 1) / 2 = 24] pairs, and a pair is
    pushed on top of [k] others only while a subarray of [m] cells with
    [INSERTION_THRESHOLD < m] and [(m + 1) * 2^k <= n + 1] is partitioned:
    an array of fewer than [sort_capacity = 12 * 2^24 - 1] cells never asks
    for a 25th pair.  An array of [sort_capacity] cells can (equal elements
    halve the subarray at every partition). *)
Definition stack_pairs : Z := (Z.of_nat NSTACK - 1) / 2.

Definition sort_capacity : Z :=
  (INSERTION_THRESHOLD + 2) * 2 ^ stack_pairs - 1.

(** An upper bound on the iterations a subarray still needs. *)
Definition weight (sg : Z * Z) : Z := 2 * (sg.2 - sg.1 + 1) + 1.

Definition work (segs : list (Z * Z)) : Z :=
  foldr (λ sg acc, weight sg + acc) 0 segs.

Definition sort_inv (a0 : list T) (s : state T) (pend : list (Z * Z)) : Prop :=
  let n := Z.of_nat (length a0) in
  arr s ≡ₚ a0 ∧
  length (stack s) = NSTACK ∧
  stack s !! 0%nat = Some None ∧
  stack s !! 49%nat = Some None ∧
  stackp s = 2 * Z.of_nat (length pend) ∧
  stack_holds (stack s) pend ∧
  Forall (λ sg, 1 ≤ sg.1 ∧ sg.1 ≤ sg.2 + 1 ∧ sg.2 ≤ n) ((l s, ir s) :: pend) ∧
  separated ((l s, ir s) :: pend) ∧
  (∀ c, 0 ≤ c ≤ n →
        (∀ sg, sg ∈ (l s, ir s) :: pend → ¬ inside c sg) → cut (arr s) c) ∧
  (ir s - l s + 2) * 2 ^ Z.of_nat (length pend) ≤ n + 1 ∧
  depth_ok n pend.
End Invariant.

(** * Vocabulary for effects and event counts *)

Section Effects.
Context {T : Type}.

(** Whenever [c] returns, it has accessed only offsets that satisfy [P],
    and its result satisfies [Q]. *)
Definition touches {A} (P : Z → Prop) (Q : A → Prop) (c : M T A) : Prop :=
  ∀ m r m',
    c m = Some (r, m') →
    (∃ t, accessed m' = t ++ accessed m ∧ Forall P t) ∧ Q r.

(** The memory [m] with the cells [tail] after its last cell. *)
Definition grow (tail : list T) (m : mem T) : mem T :=
  Mem (cells m ++ tail) (accessed m).

(** Whatever [c] computes on an array, [c'] computes on the array followed
    by [tail], and leaves [tail] as it is. *)
Definition carries {A} (tail : list T) (c c' : M T A) : Prop :=
  ∀ m r m', c m = Some (r, m') → c' (grow tail m) = Some (r, grow tail m').

(** [c] returns [r] whenever the array holds the cells [c0], and leaves
    them as they are. *)
Definition steady {A} (c0 : list T) (c : M T A) (r : A) : Prop :=
  ∀ m, cells m = c0 → ∃ m', c m = Some (r, m') ∧ cells m' = c0.

(** A state of [sort] over the array followed by [tail]. *)
Definition grow_state (tail : list T) (s : state T) : state T :=
  {| arr := arr s ++ tail; ir := ir s; l := l s;
     stack := stack s; stackp := stackp s |}.

Definition grow_outcome (tail : list T) (o : outcome T) : outcome T :=
  match o with
  | Break a => Break (a ++ tail)
  | Continue s => Continue (grow_state tail s)
  end.
End Effects.

#[export] Instance event_eq_dec : EqDecision event.
Proof. solve_decision. Defined.

(** How often [e] occurs among the events of a run. *)
Definition occurrences (e : event) (evs : list event) : nat :=
  length (filter (λ x, x = e) evs).

(** * Properties *)

(** ** Reads and writes by offset *)

Section MemoryFacts.
Context {T : Type}.
Implicit Types (a : list T) (p q : Z) (v : T) (m : mem T).

Lemma rd_Some a p v :
  rd a p = Some v ↔ 0 ≤ p ∧ a !! Z.to_nat p = Some v.
Proof.
  unfold rd. destruct (Z.ltb_spec p 0); split; try lia; intuition congruence.
Qed.

Lemma rd_range a p v : rd a p = Some v → 0 ≤ p < Z.of_nat (length a).
Proof.
  intros [Hp Hv]%rd_Some. apply lookup_lt_Some in Hv. lia.
Qed.

Lemma rd_defined a p : 0 ≤ p < Z.of_nat (length a) → ∃ v, rd a p = Some v.
Proof.
  intros Hp. destruct (lookup_lt_is_Some_2 a (Z.to_nat p)) as [v Hv]; [lia|].
  exists v. apply rd_Some. split; [lia|done].
Qed.

Lemma wr_defined a p v :
  0 ≤ p < Z.of_nat (length a) → wr a p v = Some (<[Z.to_nat p := v]> a).
Proof.
  intros Hp. unfold wr.
  destruct (Z.leb_spec 0 p), (Z.ltb_spec p (Z.of_nat (length a))); simpl; lia || done.
Qed.

Lemma wr_Some a p v a' :
  wr a p v = Some a' ↔
  0 ≤ p < Z.of_nat (length a) ∧ a' = <[Z.to_nat p := v]> a.
Proof.
  unfold wr.
  destruct (Z.leb_spec 0 p), (Z.ltb_spec p (Z.of_nat (length a))); simpl;
    split; try (intros [? ?]; lia); try discriminate.
  - intros [= <-]. split; [lia|done].
  - intros [_ ->]. done.
Qed.

Lemma rd_wr_eq a p v a' : wr a p v = Some a' → rd a' p = Some v.
Proof.
  intros [Hp ->]%wr_Some. apply rd_Some. split; [lia|].
  apply list_lookup_insert_eq. lia.
Qed.

Lemma rd_wr_ne a p q v a' : wr a p v = Some a' → q ≠ p → rd a' q = rd a q.
Proof.
  intros [Hp ->]%wr_Some Hq. unfold rd. destruct (Z.ltb_spec q 0); [done|].
  apply list_lookup_insert_ne. lia.
Qed.

Lemma rd_wr a p q v a' :
  wr a p v = Some a' → rd a' q = if decide (q = p) then Some v else rd a q.
Proof.
  intros Hw. case_decide as Hq.
  - subst q. eapply rd_wr_eq; eauto.
  - eapply rd_wr_ne; eauto.
Qed.

(** Reading the cell after a known prefix. *)
Lemma rd_middle (pre post : list T) v :
  rd (pre ++ v :: post) (Z.of_nat (length pre)) = Some v.
Proof.
  apply rd_Some. split; [lia|]. rewrite Nat2Z.id. by apply list_lookup_middle.
Qed.

Lemma wr_middle (pre post : list T) v w :
  wr (pre ++ v :: post) (Z.of_nat (length pre)) w = Some (pre ++ w :: post).
Proof.
  rewrite wr_defined.
  - rewrite Nat2Z.id. f_equal.
    replace (length pre) with (length pre + 0)%nat at 1 by lia.
    by rewrite insert_app_r.
  - rewrite length_app. simpl. lia.
Qed.

(** Stepping through monadic code. *)
Lemma bind_step {A B} (c : M T A) (k : A → M T B) m x m' :
  c m = Some (x, m') → (c ≫= k) m = k x m'.
Proof. intros H. unfold mbind, M_bind. by rewrite H. Qed.

Lemma load_step p m v :
  rd (cells m) p = Some v →
  load p m = Some (v, Mem (cells m) (p :: accessed m)).
Proof. intros H. unfold load. by rewrite H. Qed.

Lemma store_step p v m a' :
  wr (cells m) p v = Some a' →
  store p v m = Some (tt, Mem a' (p :: accessed m)).
Proof. intros H. unfold store. by rewrite H. Qed.

Lemma size_step m : size m = Some (length (cells m), m).
Proof. done. Qed.

Lemma ret_step {A} (x : A) m : (mret x : M T A) m = Some (x, m).
Proof. done. Qed.
End MemoryFacts.

(** ** Insertion sort *)

Section InsertionSort.
Context {T : Type} (key : T → Z).
Implicit Types (pre post front back rest seg : list T) (m : mem T).

#[local] Instance key_le_trans : Transitive (key_le key).
Proof. intros x y z. unfold key_le. lia. Qed.

Lemma sorted_below_last (f : list T) (x : T) :
  StronglySorted (key_le key) (f ++ [x]) →
  Forall (λ y, key y ≤ key x) (f ++ [x]).
Proof.
  intros [Hc _]%StronglySorted_app. apply Forall_app. split.
  - apply Forall_forall. intros y Hy. apply Hc; [done|]. by apply list_elem_of_singleton.
  - by constructor.
Qed.

Lemma strongly_sorted_nondescending (a : list T) :
  StronglySorted (key_le key) a → nondescending key a.
Proof.
  induction 1 as [|x a Ha IH Hx]; intros i j u v Hij Hi Hj.
  - done.
  - destruct j as [|j]; [lia|]. destruct i as [|i]; simpl in *.
    + injection Hi as <-. rewrite Forall_forall in Hx.
      apply Hx. eapply list_elem_of_lookup_2; eauto.
    + eapply IH; [|exact Hi|exact Hj]. lia.
Qed.

(** The inner [while]: the gap moves left past the elements greater than
    [value], each of which moves one cell to the right. *)
Lemma shift_loop_spec fuel value :
  ∀ front h back pre post m arr j,
    cells m = pre ++ front ++ h :: back ++ post →
    arr = Z.of_nat (length pre) →
    j = arr + Z.of_nat (length front) →
    front ≠ [] →
    (length front ≤ fuel)%nat →
    Forall (λ x, key value < key x) back →
    ∃ front' h' back' m',
      shift_loop key fuel arr value j m
        = Some (arr + Z.of_nat (length front'), m') ∧
      cells m' = pre ++ front' ++ h' :: back' ++ post ∧
      front ++ back = front' ++ back' ∧
      Forall (λ x, key value < key x) back' ∧
      (∀ x, last front' = Some x → key x ≤ key value).
Proof.
  induction fuel as [|fuel IH]; intros front h back pre post m arr j Hc Harr Hj Hne Hlen Hback.
  { destruct front; simpl in *; [done|lia]. }
  destruct front as [|x f0 _] using rev_ind; [done|].
  rewrite length_app in *. simpl in *.
  assert (Hrd : rd (cells m) (j - 1) = Some x).
  { rewrite Hc. replace (j - 1) with (Z.of_nat (length (pre ++ f0)))
      by (rewrite length_app; lia).
    rewrite <- (rd_middle (pre ++ f0) (h :: back ++ post) x).
    f_equal. by rewrite <- !app_assoc. }
  erewrite bind_step by (eapply load_step, Hrd).
  destruct (Z.ltb_spec (key value) (key x)) as [Hlt|Hge].
  - erewrite bind_step by (eapply load_step; simpl; exact Hrd).
    assert (Hwr : wr (cells m) j x
                  = Some (pre ++ f0 ++ x :: (x :: back) ++ post)).
    { rewrite Hc. replace j with (Z.of_nat (length (pre ++ f0 ++ [x])))
        by (rewrite !length_app; simpl; lia).
      replace (pre ++ (f0 ++ [x]) ++ h :: back ++ post)
        with ((pre ++ f0 ++ [x]) ++ h :: back ++ post)
        by (by rewrite <- !app_assoc).
      rewrite wr_middle. f_equal. by rewrite <- !app_assoc. }
    erewrite bind_step by (eapply store_step; simpl; exact Hwr).
    destruct (Z.eqb_spec (j - 1) arr) as [Heq|Hneq].
    + assert (f0 = []) as -> by (destruct f0; simpl in *; [done|lia]).
      exists [], x, (x :: back). eexists. split; [|split; [|split; [|split]]].
      * rewrite ret_step. do 2 f_equal. simpl. lia.
      * done.
      * done.
      * by constructor.
      * done.
    + destruct (IH f0 x (x :: back) pre post
                  (Mem (pre ++ f0 ++ x :: (x :: back) ++ post)
                       (j :: j - 1 :: j - 1 :: accessed m)) arr (j - 1))
        as (front' & h' & back' & m' & Hrun & Hc' & Happ & Hb' & Hl');
        try done.
      * lia.
      * intros ->. simpl in *. lia.
      * lia.
      * by constructor.
      * exists front', h', back', m'. split; [done|]. split; [done|].
        split; [|done]. by rewrite <- app_assoc.
  - exists (f0 ++ [x]), h, back. eexists. split; [|split; [|split; [|split]]].
    + rewrite ret_step. do 2 f_equal. rewrite length_app. simpl. lia.
    + done.
    + done.
    + done.
    + intros y. rewrite last_snoc. intros [= <-]. done.
Qed.

(** The outer [for]: the cells before [i] are a stable sort of what they
    held on entry. *)
Lemma insertion_loop_spec fuel :
  ∀ s rest pre post m n arr i,
    cells m = pre ++ s ++ rest ++ post →
    arr = Z.of_nat (length pre) →
    i = arr + Z.of_nat (length s) →
    n = Z.of_nat (length s + length rest) →
    s ≠ [] →
    (length rest < fuel)%nat →
    StronglySorted (key_le key) s →
    ∃ s' m',
      insertion_loop key fuel n arr i m = Some (tt, m') ∧
      cells m' = pre ++ s' ++ post ∧
      StronglySorted (key_le key) s' ∧
      s' ≡ₚ s ++ rest ∧
      equals_keep_order key (s ++ rest) s'.
Proof.
  induction fuel as [|fuel IH];
    intros s rest pre post m n arr i Hc Harr Hi Hn Hne Hfuel Hs; [lia|].
  simpl. destruct (Z.ltb_spec i (arr + n)) as [Hlt|Hge].
  - destruct rest as [|value rest]; [simpl in *; lia|].
    assert (Hrd : rd (cells m) i = Some value).
    { rewrite Hc. replace i with (Z.of_nat (length (pre ++ s)))
        by (rewrite length_app; lia).
      rewrite <- (rd_middle (pre ++ s) (rest ++ post) value).
      f_equal. by rewrite <- !app_assoc. }
    erewrite bind_step by (eapply load_step, Hrd).
    destruct (shift_loop_spec (Z.to_nat (i - arr)) value s value [] pre
                (rest ++ post) (Mem (cells m) (i :: accessed m)) arr i)
      as (front & h & back & m1 & Hrun & Hc1 & Happ & Hback & Hlast);
      try done; try lia.
    erewrite bind_step by exact Hrun.
    rewrite app_nil_r in Happ.
    assert (Hwr : wr (cells m1) (arr + Z.of_nat (length front)) value
                  = Some (pre ++ (front ++ value :: back) ++ rest ++ post)).
    { rewrite Hc1.
      replace (arr + Z.of_nat (length front))
        with (Z.of_nat (length (pre ++ front)))
        by (rewrite length_app; lia).
      replace (pre ++ front ++ h :: back ++ rest ++ post)
        with ((pre ++ front) ++ h :: back ++ rest ++ post)
        by (by rewrite <- !app_assoc).
      rewrite wr_middle. f_equal. by rewrite <- !app_assoc. }
    erewrite bind_step by (eapply store_step, Hwr).
    assert (Hlen : length s = (length front + length back)%nat)
      by (by rewrite Happ, length_app).
    assert (Hsorted : StronglySorted (key_le key) (front ++ value :: back)).
    { rewrite Happ in Hs. apply StronglySorted_app in Hs as (Hcross & Hf & Hb).
      apply StronglySorted_app_2.
      - intros x1 x2 Hx1 [->|Hx2]%elem_of_cons.
        + destruct front as [|y f0 _] using rev_ind; [by apply elem_of_nil in Hx1|].
          apply sorted_below_last in Hf. rewrite Forall_forall in Hf.
          specialize (Hlast y). rewrite last_snoc in Hlast.
          specialize (Hf _ Hx1). specialize (Hlast eq_refl).
          unfold key_le. lia.
        + by apply Hcross.
      - done.
      - constructor; [done|]. eapply Forall_impl; [exact Hback|].
        intros x Hx. unfold key_le. simpl in Hx. lia. }
    destruct (IH (front ++ value :: back) rest pre post
                (Mem (pre ++ (front ++ value :: back) ++ rest ++ post)
                     (arr + Z.of_nat (length front) :: accessed m1))
                n arr (i + 1))
      as (s' & m' & Hrun' & Hc' & Hs' & Hperm & Hst);
      try done.
    + rewrite length_app. simpl. lia.
    + rewrite length_app. simpl in *. lia.
    + by destruct front.
    + simpl in *. lia.
    + exists s', m'. split; [done|]. split; [done|]. split; [done|]. split.
      * rewrite Hperm, Happ, <- !app_assoc. simpl.
        apply Permutation_app_head. apply Permutation_middle.
      * intros k. rewrite (Hst k), Happ, <- !app_assoc, !filter_app.
        f_equal. rewrite !filter_cons.
        destruct (decide (key value = k)) as [Hk|Hk]; [|done].
        assert (filter (λ x, key x = k) back = []) as ->; [|done].
        clear -Hback Hk. induction Hback as [|x back Hx _ IHb]; [done|].
        rewrite filter_cons_False by lia. done.
  - assert (rest = []) as -> by (destruct rest; simpl in *; [done|lia]).
    exists s. eexists. rewrite ret_step. split; [done|].
    rewrite app_nil_r. simpl in Hc. done.
Qed.

(** [insertion_sort(n, arr)] sorts the [n] cells from [arr] on, stably,
    and leaves every other cell alone. *)
Lemma insertion_sort_spec pre seg post m :
  cells m = pre ++ seg ++ post →
  ∃ seg' m',
    insertion_sort key (Z.of_nat (length seg)) (Z.of_nat (length pre)) m
      = Some (tt, m') ∧
    cells m' = pre ++ seg' ++ post ∧
    StronglySorted (key_le key) seg' ∧
    seg' ≡ₚ seg ∧
    equals_keep_order key seg seg'.
Proof.
  intros Hc. unfold insertion_sort.
  rewrite (proj2 (Z.ltb_ge (Z.of_nat (length seg)) 0)) by lia.
  destruct seg as [|x seg].
  - exists [], m. simpl.
    rewrite (proj2 (Z.ltb_ge _ _)) by lia.
    rewrite ret_step. repeat split; [done|constructor|done].
  - destruct (insertion_loop_spec (S (Z.to_nat (Z.of_nat (length (x :: seg)))))
                [x] seg pre post m (Z.of_nat (length (x :: seg)))
                (Z.of_nat (length pre)) (Z.of_nat (length pre) + 1))
      as (s' & m' & Hrun & Hc' & Hs' & Hperm & Hst); try done.
    + simpl. lia.
    + repeat constructor.
    + exists s', m'. done.
Qed.
End InsertionSort.

(** ** Exchanges and rearrangements *)

Section Rearrangement.
Context {T : Type}.
Implicit Types (a : list T) (p q lo hi : Z) (m : mem T).

Lemma swapped_rd_l a a' p q : swapped a a' p q → rd a' p = rd a q.
Proof.
  intros (x & y & Hp & Hq & _ & H). rewrite H.
  repeat case_decide; congruence.
Qed.

Lemma swapped_rd_r a a' p q : swapped a a' p q → rd a' q = rd a p.
Proof.
  intros (x & y & Hp & Hq & _ & H). rewrite H.
  repeat case_decide; congruence.
Qed.

Lemma swapped_rd_other a a' p q k :
  swapped a a' p q → k ≠ p → k ≠ q → rd a' k = rd a k.
Proof.
  intros (x & y & Hp & Hq & _ & H) ? ?. rewrite H.
  repeat case_decide; congruence.
Qed.

Lemma swapped_length a a' p q : swapped a a' p q → length a' = length a.
Proof. by intros (x & y & _ & _ & ? & _). Qed.

Lemma swapped_Permutation a a' p q : swapped a a' p q → a' ≡ₚ a.
Proof.
  intros (x & y & Hp & Hq & Hlen & H).
  apply Permutation_inj. split; [done|].
  exists (λ k, if decide (k = Z.to_nat q) then Z.to_nat p
               else if decide (k = Z.to_nat p) then Z.to_nat q else k).
  split.
  - intros k1 k2. repeat case_decide; lia.
  - intros k. specialize (H (Z.of_nat k)).
    apply rd_Some in Hp as [? Hp]. apply rd_Some in Hq as [? Hq].
    unfold rd in H. destruct (Z.ltb_spec (Z.of_nat k) 0); [lia|].
    rewrite Nat2Z.id in H. rewrite H.
    repeat case_decide; try lia; try congruence.
Qed.

Lemma rearranged_refl lo hi a : rearranged lo hi a a.
Proof. repeat split; eauto. Qed.

Lemma rearranged_trans lo hi a1 a2 a3 :
  rearranged lo hi a1 a2 → rearranged lo hi a2 a3 → rearranged lo hi a1 a3.
Proof.
  intros (L1 & P1 & O1 & W1) (L2 & P2 & O2 & W2). repeat split.
  - congruence.
  - by etransitivity.
  - intros k Hk. rewrite O2, O1; done.
  - intros k v Hk Hv. destruct (W2 k v Hk Hv) as (k' & Hk' & Hv'). eauto.
Qed.

Lemma rearranged_mono lo hi lo' hi' a a' :
  rearranged lo hi a a' → lo' ≤ lo → hi ≤ hi' → rearranged lo' hi' a a'.
Proof.
  intros (L & P & O & W) Hlo Hhi. repeat split; [done|done| |].
  - intros k Hk. apply O. lia.
  - intros k v Hk Hv.
    destruct (decide (lo ≤ k ≤ hi)) as [Hin|Hout].
    + destruct (W k v Hin Hv) as (k' & Hk' & Hv'). exists k'. split; [lia|done].
    + exists k. split; [done|]. rewrite <- O; [done|lia].
Qed.

Lemma swapped_rearranged lo hi a a' p q :
  swapped a a' p q → lo ≤ p ≤ hi → lo ≤ q ≤ hi → rearranged lo hi a a'.
Proof.
  intros Hs Hp Hq. repeat split.
  - eapply swapped_length; eauto.
  - eapply swapped_Permutation; eauto.
  - intros k Hk. eapply swapped_rd_other; eauto; lia.
  - intros k v Hk Hv. destruct Hs as (x & y & Hx & Hy & _ & H).
    rewrite H in Hv. repeat case_decide.
    + exists p. split; [done|congruence].
    + exists q. split; [done|congruence].
    + exists k. done.
Qed.

Lemma log_within_refl lo hi m : log_within lo hi m m.
Proof. exists []. split; [done|constructor]. Qed.

Lemma log_within_trans lo hi m1 m2 m3 :
  log_within lo hi m1 m2 → log_within lo hi m2 m3 → log_within lo hi m1 m3.
Proof.
  intros (t1 & E1 & F1) (t2 & E2 & F2). exists (t2 ++ t1). split.
  - by rewrite E2, E1, app_assoc.
  - by apply Forall_app.
Qed.

Lemma log_within_mono lo hi lo' hi' m m' :
  log_within lo hi m m' → lo' ≤ lo → hi ≤ hi' → log_within lo' hi' m m'.
Proof.
  intros (t & E & F) ? ?. exists t. split; [done|].
  eapply Forall_impl; [exact F|]. simpl. intros. lia.
Qed.

Lemma log_within_cons lo hi m a p :
  lo ≤ p ≤ hi → log_within lo hi m (Mem a (p :: accessed m)).
Proof. intros Hp. exists [p]. split; [done|]. constructor; [done|constructor]. Qed.

(** [SWAP(a,b)] exchanges two readable cells and touches nothing else. *)
Lemma SWAP_spec p q m x y :
  rd (cells m) p = Some x → rd (cells m) q = Some y →
  ∃ a',
    SWAP p q m = Some (tt, Mem a' (q :: p :: q :: p :: accessed m)) ∧
    swapped (cells m) a' p q.
Proof.
  intros Hp Hq. unfold SWAP.
  erewrite bind_step by (eapply load_step, Hp).
  erewrite bind_step by (eapply load_step; simpl; exact Hq).
  pose proof (wr_defined (cells m) p y (rd_range _ _ _ Hp)) as Hw1.
  erewrite bind_step by (eapply store_step; simpl; exact Hw1).
  assert (Hr : 0 ≤ q < Z.of_nat (length (<[Z.to_nat p:=y]> (cells m)))).
  { rewrite length_insert. by eapply rd_range. }
  pose proof (wr_defined _ q x Hr) as Hw2.
  erewrite store_step by (simpl; exact Hw2). simpl.
  eexists. split; [done|]. exists x, y. split; [done|]. split; [done|]. split.
  - by rewrite !length_insert.
  - intros k. rewrite (rd_wr _ _ _ _ _ Hw2). case_decide; [done|].
    rewrite (rd_wr _ _ _ _ _ Hw1). done.
Qed.
End Rearrangement.

(** ** Median of three *)

Section MedianOfThree.
Context {T : Type} (key : T → Z).
Implicit Types (a : list T) (p q l ir : Z) (m : mem T).

(** [SWAP_IF_GREATER(a,b)] leaves the smaller key in the first cell. *)
Lemma SWAP_IF_GREATER_spec p q m x y lo hi :
  rd (cells m) p = Some x → rd (cells m) q = Some y → p ≠ q →
  lo ≤ p ≤ hi → lo ≤ q ≤ hi →
  ∃ m' x' y',
    SWAP_IF_GREATER key p q m = Some (tt, m') ∧
    rd (cells m') p = Some x' ∧ rd (cells m') q = Some y' ∧
    key x' ≤ key y' ∧
    (x' = x ∧ y' = y ∨ x' = y ∧ y' = x) ∧
    (∀ k, k ≠ p → k ≠ q → rd (cells m') k = rd (cells m) k) ∧
    rearranged lo hi (cells m) (cells m').
Proof.
  intros Hp Hq Hne Hpr Hqr. unfold SWAP_IF_GREATER.
  erewrite bind_step by (eapply load_step, Hp).
  erewrite bind_step by (eapply load_step; simpl; exact Hq).
  destruct (Z.ltb_spec (key y) (key x)) as [Hlt|Hge].
  - destruct (SWAP_spec p q (Mem (cells m) (q :: p :: accessed m)) x y)
      as (a' & Hrun & Hsw); [done|done|].
    simpl in *. rewrite Hrun. eexists _, y, x. split; [done|]. simpl in *.
    split; [by rewrite (swapped_rd_l _ _ _ _ Hsw)|].
    split; [by rewrite (swapped_rd_r _ _ _ _ Hsw)|].
    split; [lia|]. split; [by right|]. split.
    + intros k ? ?. by eapply swapped_rd_other.
    + by eapply swapped_rearranged.
  - rewrite ret_step. eexists _, x, y. simpl.
    split; [done|]. split; [done|]. split; [done|]. split; [done|].
    split; [by left|]. split; [done|]. apply rearranged_refl.
Qed.

Lemma midpoint_range l ir :
  1 ≤ l → 2 ≤ ir - l → l ≤ Z.quot (l + ir) 2 - 1 ≤ ir - 2.
Proof.
  intros. rewrite Z.quot_div_nonneg by lia. Z.div_mod_to_equations. lia.
Qed.

Ltac perm3 :=
  solve [ reflexivity
        | apply perm_swap
        | apply perm_skip, perm_swap
        | etransitivity; [apply perm_swap|apply perm_skip, perm_swap]
        | etransitivity; [apply perm_skip, perm_swap|apply perm_swap]
        | etransitivity;
          [apply perm_swap
          |etransitivity; [apply perm_skip, perm_swap|apply perm_swap]] ].

(** Lines 93-96: afterwards [l[-1] <= l[0] <= ir[-1]], these three cells
    hold what the cells at [l-1], the midpoint and [ir-1] held, and no
    other cell than these four has changed. *)
Lemma median3_spec l ir m x y z :
  1 ≤ l → 2 ≤ ir - l → ir ≤ Z.of_nat (length (cells m)) →
  rd (cells m) (l - 1) = Some x →
  rd (cells m) (Z.quot (l + ir) 2 - 1) = Some y →
  rd (cells m) (ir - 1) = Some z →
  ∃ m' u v w,
    median3 key l ir m = Some (tt, m') ∧
    rd (cells m') (l - 1) = Some u ∧
    rd (cells m') l = Some v ∧
    rd (cells m') (ir - 1) = Some w ∧
    key u ≤ key v ≤ key w ∧
    [u; v; w] ≡ₚ [x; y; z] ∧
    key v = median_key (key x) (key y) (key z) ∧
    (∀ k, k ≠ l - 1 → k ≠ l → k ≠ Z.quot (l + ir) 2 - 1 → k ≠ ir - 1 →
          rd (cells m') k = rd (cells m) k) ∧
    rearranged (l - 1) (ir - 1) (cells m) (cells m').
Proof.
  intros Hl Hlen Hir Hx Hy Hz.
  pose proof (midpoint_range l ir Hl Hlen) as Hmid.
  set (mid := Z.quot (l + ir) 2 - 1) in *.
  destruct (rd_defined (cells m) l) as [t Ht]; [lia|].
  destruct (SWAP_spec mid l m y t Hy Ht) as (a1 & Hrun1 & Hsw).
  unfold median3. erewrite bind_step by exact Hrun1.
  set (m1 := Mem a1 _).
  assert (Hx1 : rd (cells m1) (l - 1) = Some x).
  { simpl. rewrite (swapped_rd_other _ _ _ _ _ Hsw); [done|lia|lia]. }
  assert (Hy1 : rd (cells m1) l = Some y).
  { simpl. by rewrite (swapped_rd_r _ _ _ _ Hsw). }
  assert (Hz1 : rd (cells m1) (ir - 1) = Some z).
  { simpl. rewrite (swapped_rd_other _ _ _ _ _ Hsw); [done|lia|lia]. }
  assert (R1 : rearranged (l - 1) (ir - 1) (cells m) (cells m1)).
  { eapply swapped_rearranged; [exact Hsw|lia|lia]. }
  destruct (SWAP_IF_GREATER_spec (l - 1) (ir - 1) m1 x z (l - 1) (ir - 1))
    as (m2 & x2 & z2 & Hrun2 & Hx2 & Hz2 & Hle2 & Hc2 & Ho2 & R2);
    [done|done|lia|lia|lia|].
  erewrite bind_step by exact Hrun2.
  assert (Hy2 : rd (cells m2) l = Some y) by (rewrite Ho2; [done|lia|lia]).
  destruct (SWAP_IF_GREATER_spec l (ir - 1) m2 y z2 (l - 1) (ir - 1))
    as (m3 & y3 & z3 & Hrun3 & Hy3 & Hz3 & Hle3 & Hc3 & Ho3 & R3);
    [done|done|lia|lia|lia|].
  erewrite bind_step by exact Hrun3.
  assert (Hx3 : rd (cells m3) (l - 1) = Some x2) by (rewrite Ho3; [done|lia|lia]).
  destruct (SWAP_IF_GREATER_spec (l - 1) l m3 x2 y3 (l - 1) (ir - 1))
    as (m4 & x4 & y4 & Hrun4 & Hx4 & Hy4 & Hle4 & Hc4 & Ho4 & R4);
    [done|done|lia|lia|lia|].
  rewrite Hrun4.
  assert (Hz4 : rd (cells m4) (ir - 1) = Some z3) by (rewrite Ho4; [done|lia|lia]).
  exists m4, x4, y4, z3. split; [done|]. split; [done|]. split; [done|].
  split; [done|].
  split; [|split; [|split; [|split]]].
  - destruct Hc2 as [[-> ->]|[-> ->]], Hc3 as [[-> ->]|[-> ->]],
      Hc4 as [[-> ->]|[-> ->]]; lia.
  - destruct Hc2 as [[-> ->]|[-> ->]], Hc3 as [[-> ->]|[-> ->]],
      Hc4 as [[-> ->]|[-> ->]]; perm3.
  - unfold median_key.
    destruct Hc2 as [[-> ->]|[-> ->]], Hc3 as [[-> ->]|[-> ->]],
      Hc4 as [[-> ->]|[-> ->]]; lia.
  - intros k ? ? ? ?. rewrite Ho4, Ho3, Ho2 by done. simpl.
    by rewrite (swapped_rd_other _ _ _ _ _ Hsw).
  - eapply rearranged_trans; [|exact R4].
    eapply rearranged_trans; [|exact R3].
    eapply rearranged_trans; [exact R1|exact R2].
Qed.
End MedianOfThree.

(** ** The partition scan *)

Section PartitionScan.
Context {T : Type} (key : T → Z).
Implicit Types (c : list T) (a : T) (i j l ir s : Z) (m : mem T).

(** The upward scan stops at or before any cell [s] whose key is not
    below the pivot's. *)
Lemma scan_up_spec fuel a :
  ∀ i s m vs,
    0 ≤ i ≤ s → rd (cells m) s = Some vs → key a ≤ key vs →
    (Z.to_nat (s - i) < fuel)%nat →
    ∃ i' m',
      scan_up key fuel a i m = Some (i', m') ∧
      cells m' = cells m ∧
      i + 1 ≤ i' ≤ s + 1 ∧
      all_cells (λ v, key v < key a) (cells m) i (i' - 2) ∧
      (∃ v, rd (cells m) (i' - 1) = Some v ∧ key a ≤ key v) ∧
      log_within i (i' - 1) m m'.
Proof.
  induction fuel as [|fuel IH]; intros i s m vs Hi Hs Hvs Hfuel; [lia|].
  destruct (rd_defined (cells m) i) as [x Hx].
  { apply rd_range in Hs. lia. }
  simpl. erewrite bind_step by (eapply load_step, Hx).
  destruct (Z.ltb_spec (key x) (key a)) as [Hlt|Hge].
  - assert (i ≠ s) by (intros ->; rewrite Hx in Hs; injection Hs as ->; lia).
    destruct (IH (i + 1) s (Mem (cells m) (i :: accessed m)) vs)
      as (i' & m' & Hrun & Hc & Hr & Hbelow & Hstop & Hlog);
      [lia|done|done|lia|].
    exists i', m'. split; [done|]. split; [done|]. split; [lia|]. split; [|split].
    + intros k v Hk Hv. destruct (decide (k = i)) as [->|].
      * simpl in *. rewrite Hx in Hv. by injection Hv as <-.
      * apply (Hbelow k v); [lia|done].
    + replace (i + 1 - 1) with i in * by lia. done.
    + eapply log_within_trans.
      * apply (log_within_cons i (i' - 1) m (cells m) i). lia.
      * eapply log_within_mono; [exact Hlog|lia|lia].
  - rewrite ret_step. eexists _, _. split; [done|]. split; [done|].
    split; [lia|]. split; [|split].
    + intros k v Hk. lia.
    + exists x. replace (i + 1 - 1) with i by lia. done.
    + apply log_within_cons. lia.
Qed.

(** The downward scan stops at or after any cell [s] whose key is not
    above the pivot's. *)
Lemma scan_down_spec fuel a :
  ∀ j s m vs,
    0 ≤ s ≤ j - 2 → j - 2 < Z.of_nat (length (cells m)) →
    rd (cells m) s = Some vs → key vs ≤ key a →
    (Z.to_nat (j - 2 - s) < fuel)%nat →
    ∃ j' m',
      scan_down key fuel a j m = Some (j', m') ∧
      cells m' = cells m ∧
      s + 1 ≤ j' ≤ j - 1 ∧
      all_cells (λ v, key a < key v) (cells m) j' (j - 2) ∧
      (∃ v, rd (cells m) (j' - 1) = Some v ∧ key v ≤ key a) ∧
      log_within (j' - 1) (j - 2) m m'.
Proof.
  induction fuel as [|fuel IH]; intros j s m vs Hj Hlen Hs Hvs Hfuel; [lia|].
  destruct (rd_defined (cells m) (j - 2)) as [x Hx]; [lia|].
  simpl. erewrite bind_step by (eapply load_step, Hx).
  destruct (Z.ltb_spec (key a) (key x)) as [Hlt|Hge].
  - assert (j - 2 ≠ s) by (intros <-; rewrite Hx in Hs; injection Hs as ->; lia).
    destruct (IH (j - 1) s (Mem (cells m) (j - 2 :: accessed m)) vs)
      as (j' & m' & Hrun & Hc & Hr & Habove & Hstop & Hlog);
      [lia|simpl; lia|done|done|lia|].
    exists j', m'. split; [done|]. split; [done|]. split; [lia|]. split; [|split].
    + intros k v Hk Hv. destruct (decide (k = j - 2)) as [->|].
      * simpl in *. rewrite Hx in Hv. by injection Hv as <-.
      * apply (Habove k v); [lia|done].
    + done.
    + eapply log_within_trans.
      * apply (log_within_cons (j' - 1) (j - 2) m (cells m) (j - 2)). lia.
      * eapply log_within_mono; [exact Hlog|lia|lia].
  - rewrite ret_step. eexists _, _. split; [done|]. split; [done|].
    split; [lia|]. split; [|split].
    + intros k v Hk. lia.
    + exists x. replace (j - 1 - 1) with (j - 2) by lia. done.
    + apply log_within_cons. lia.
Qed.

Lemma partition_loop_unfold fuel a i j :
  partition_loop key (S fuel) a i j =
  (sz ← size;
   i' ← scan_up key (S sz) a i;
   j' ← scan_down key (S sz) a j;
   if j' <? i' then mret (i', j')
   else SWAP (i' - 1) (j' - 1);; partition_loop key fuel a i' j').
Proof. done. Qed.

(** The innermost [for (;;)]: it ends with the cursors crossed, having
    only exchanged cells strictly inside the subarray. *)
Lemma partition_loop_spec fuel a l ir :
  ∀ i j m,
    scan_inv key a l ir i j (cells m) →
    (Z.to_nat (j - i) < fuel)%nat →
    ∃ i' j' m',
      partition_loop key fuel a i j m = Some ((i', j'), m') ∧
      rearranged (l + 1) (ir - 2) (cells m) (cells m') ∧
      l + 1 ≤ j' ∧ j' < i' ∧ i' ≤ ir ∧
      partitioned key a l ir i' (j' + 1) (cells m') ∧
      log_within l (ir - 1) m m'.
Proof.
  induction fuel as [|fuel IH]; intros i j m Hinv Hfuel; [lia|].
  destruct Hinv as (Hl & Hir & Hli & Hij & Hiir & Hlj & Hjir & Ha & Hlow & Hhigh).
  rewrite partition_loop_unfold, (bind_step _ _ _ _ _ (size_step m)).
  (* upward scan, stopped by the cell at max i (j-1) *)
  destruct (rd_defined (cells m) (Z.max i (j - 1))) as [vu Hvu]; [lia|].
  destruct (scan_up_spec (S (length (cells m))) a i (Z.max i (j - 1)) m vu)
    as (i' & m1 & Hrun1 & Hc1 & Hi' & Hbelow & (vi & Hvi & Hvia) & Hlog1);
    [lia|done|apply (Hhigh (Z.max i (j - 1)) vu); [lia|done]|lia|].
  erewrite bind_step by exact Hrun1.
  (* downward scan, stopped by the cell at min (i-1) (j-2) *)
  destruct (rd_defined (cells m) (Z.min (i - 1) (j - 2))) as [vd Hvd]; [lia|].
  destruct (scan_down_spec (S (length (cells m1))) a j (Z.min (i - 1) (j - 2)) m1 vd)
    as (j' & m2 & Hrun2 & Hc2 & Hj' & Habove & (vj & Hvj & Hvja) & Hlog2);
    [lia|rewrite Hc1; lia|by rewrite Hc1
    |apply (Hlow (Z.min (i - 1) (j - 2)) vd); [lia|done]|rewrite Hc1; lia|].
  rewrite Hc1 in *. erewrite bind_step by exact Hrun2.
  assert (Hlog12 : log_within l (ir - 1) m m2).
  { eapply log_within_trans.
    - eapply log_within_mono; [exact Hlog1|lia|lia].
    - eapply log_within_mono; [exact Hlog2|lia|lia]. }
  destruct (Z.ltb_spec j' i') as [Hcross|Hnot].
  - (* cursors crossed *)
    rewrite ret_step. exists i', j', m2. split; [done|].
    rewrite Hc2. split; [apply rearranged_refl|].
    split; [lia|]. split; [done|]. split; [lia|]. split; [|done].
    replace (j' + 1 - 2) with (j' - 1) by lia.
    replace (j' + 1 - 1) with j' by lia.
    split; [|split]; intros k v Hk Hv.
    + destruct (decide (k ≤ i - 1)).
      * apply (Hlow k v); [lia|done].
      * pose proof (Hbelow k v ltac:(lia) Hv). simpl in *. lia.
    + apply Z.le_antisymm.
      * destruct (decide (k ≤ i - 1)).
        -- apply (Hlow k v); [lia|done].
        -- pose proof (Hbelow k v ltac:(lia) Hv). simpl in *. lia.
      * destruct (decide (j - 1 ≤ k)).
        -- apply (Hhigh k v); [lia|done].
        -- pose proof (Habove k v ltac:(lia) Hv). simpl in *. lia.
    + destruct (decide (k = i' - 1)) as [->|].
      * rewrite Hvi in Hv. by injection Hv as <-.
      * destruct (decide (j - 1 ≤ k)).
        -- apply (Hhigh k v); [lia|done].
        -- pose proof (Habove k v ltac:(lia) Hv). simpl in *. lia.
  - (* exchange and go round again *)
    destruct (SWAP_spec (i' - 1) (j' - 1) m2 vi vj) as (c' & Hrun3 & Hsw);
      [by rewrite Hc2|by rewrite Hc2|].
    erewrite bind_step by exact Hrun3.
    rewrite Hc2 in Hsw.
    set (m3 := Mem c' _) in *.
    destruct (IH i' j' m3) as (i'' & j'' & m' & Hrun & Hre & ? & ? & ? & Hpart & Hlog);
      [|lia|].
    { pose proof (swapped_length _ _ _ _ Hsw) as Hlen.
      unfold scan_inv. simpl. rewrite Hlen.
      split; [done|]. split; [done|]. split; [lia|]. split; [done|].
      split; [lia|]. split; [lia|]. split; [lia|]. split; [|split].
      - rewrite (swapped_rd_other _ _ _ _ _ Hsw); [done|lia|lia].
      - intros k v Hk Hv. destruct (decide (k = i' - 1)) as [->|].
        + rewrite (swapped_rd_l _ _ _ _ Hsw), Hvj in Hv. by injection Hv as <-.
        + rewrite (swapped_rd_other _ _ _ _ _ Hsw) in Hv by lia.
          destruct (decide (k ≤ i - 1)).
          * apply (Hlow k v); [lia|done].
          * pose proof (Hbelow k v ltac:(lia) Hv). simpl in *. lia.
      - intros k v Hk Hv. destruct (decide (k = j' - 1)) as [->|].
        + rewrite (swapped_rd_r _ _ _ _ Hsw), Hvi in Hv. by injection Hv as <-.
        + rewrite (swapped_rd_other _ _ _ _ _ Hsw) in Hv by lia.
          destruct (decide (j - 1 ≤ k)).
          * apply (Hhigh k v); [lia|done].
          * pose proof (Habove k v ltac:(lia) Hv). simpl in *. lia. }
    exists i'', j'', m'. split; [done|]. split.
    { eapply rearranged_trans; [|exact Hre].
      eapply swapped_rearranged; [exact Hsw|lia|lia]. }
    split; [done|]. split; [done|]. split; [done|]. split; [done|].
    eapply log_within_trans; [exact Hlog12|].
    eapply log_within_trans; [|exact Hlog].
    exists [j' - 1; i' - 1; j' - 1; i' - 1]. split; [done|].
    repeat (constructor; [lia|]). constructor.
Qed.

(** Lines 99-114 on a subarray prepared by the median of three. *)
Lemma partition_scan_spec l ir m u a w :
  1 ≤ l → l + 2 ≤ ir → ir ≤ Z.of_nat (length (cells m)) →
  rd (cells m) (l - 1) = Some u →
  rd (cells m) l = Some a →
  rd (cells m) (ir - 1) = Some w →
  key u ≤ key a → key a ≤ key w →
  ∃ i j m',
    partition_scan key l ir m = Some ((i, j), m') ∧
    rearranged l (ir - 2) (cells m) (cells m') ∧
    l + 1 ≤ j ∧ j < i ∧ i ≤ ir ∧
    partitioned key a (l - 1) ir i j (cells m') ∧
    log_within l (ir - 1) m m'.
Proof.
  intros Hl Hlir Hir Hu Ha Hw Hua Haw.
  unfold partition_scan. erewrite bind_step by (eapply load_step, Ha).
  set (m0 := Mem (cells m) (l :: accessed m)).
  unfold partition_with. rewrite (bind_step _ _ _ _ _ (size_step m0)).
  destruct (partition_loop_spec (S (length (cells m0))) a l ir (l + 1) ir m0)
    as (i & j & m1 & Hrun & Hre & Hlj & Hji & Hiir & (Hlow & Heq & Hhigh) & Hlog).
  { unfold scan_inv. simpl.
    split; [lia|]. split; [done|]. split; [lia|]. split; [lia|].
    split; [lia|]. split; [lia|]. split; [lia|]. split; [done|]. split.
    - intros k v Hk Hv. replace k with l in Hv by lia.
      rewrite Ha in Hv. injection Hv as <-. lia.
    - intros k v Hk Hv. replace k with (ir - 1) in Hv by lia.
      rewrite Hw in Hv. by injection Hv as <-. }
  { simpl. lia. }
  erewrite bind_step by exact Hrun. simpl in Hre.
  pose proof Hre as (Hlen1 & Hperm1 & Hout1 & Hwin1).
  replace (j + 1 - 2) with (j - 1) in Hlow by lia.
  replace (j + 1 - 1) with j in Heq by lia.
  destruct (rd_defined (cells m1) (j - 1)) as [x Hx]; [lia|].
  pose proof (Hlow (j - 1) x ltac:(lia) Hx) as Hxa. simpl in Hxa.
  erewrite bind_step by (eapply load_step, Hx).
  pose proof (wr_defined (cells m1) l x ltac:(lia)) as Hw1.
  erewrite bind_step by (eapply store_step; simpl; exact Hw1).
  set (c2 := <[Z.to_nat l := x]> (cells m1)) in *.
  assert (Hr2 : 0 ≤ j - 1 < Z.of_nat (length c2))
    by (unfold c2; rewrite length_insert; lia).
  pose proof (wr_defined c2 (j - 1) a Hr2) as Hw2.
  erewrite bind_step by (eapply store_step; simpl; exact Hw2).
  rewrite ret_step.
  set (c3 := <[Z.to_nat (j - 1) := a]> c2) in *.
  assert (Ha1 : rd (cells m1) l = Some a) by (rewrite Hout1; [done|lia]).
  assert (Hsw : swapped (cells m1) c3 l (j - 1)).
  { exists a, x. split; [done|]. split; [done|]. split.
    - unfold c3, c2. by rewrite !length_insert.
    - intros k. rewrite (rd_wr _ _ _ _ _ Hw2). case_decide; [done|].
      by rewrite (rd_wr _ _ _ _ _ Hw1). }
  exists i, j. eexists. split; [done|]. simpl. split.
  { eapply rearranged_trans.
    - eapply rearranged_mono; [exact Hre|lia|lia].
    - eapply swapped_rearranged; [exact Hsw|lia|lia]. }
  split; [done|]. split; [done|]. split; [done|]. split.
  { split; [|split]; intros k v Hk Hv.
    - destruct (decide (k = l)) as [->|Hkl].
      + rewrite (swapped_rd_l _ _ _ _ Hsw), Hx in Hv. by injection Hv as <-.
      + rewrite (swapped_rd_other _ _ _ _ _ Hsw) in Hv by lia.
        destruct (decide (k = l - 1)) as [->|].
        * rewrite Hout1, Hu in Hv by lia. by injection Hv as <-.
        * apply (Hlow k v); [lia|done].
    - destruct (decide (k = j - 1)) as [->|Hkj].
      + rewrite (swapped_rd_r _ _ _ _ Hsw), Ha1 in Hv. by injection Hv as <-.
      + rewrite (swapped_rd_other _ _ _ _ _ Hsw) in Hv by lia.
        apply (Heq k v); [lia|done].
    - rewrite (swapped_rd_other _ _ _ _ _ Hsw) in Hv by lia.
      apply (Hhigh k v); [lia|done]. }
  eapply log_within_trans; [apply (log_within_cons l (ir - 1) m (cells m) l); lia|].
  eapply log_within_trans; [exact Hlog|].
  exists [j - 1; l; j - 1]. split; [done|].
  repeat (constructor; [lia|]). constructor.
Qed.
End PartitionScan.

(** ** Cuts and windows *)

Section Cuts.
Context {T : Type} (key : T → Z).
Implicit Types (a pre seg post : list T) (c lo hi : Z).

Lemma rd_app a1 a2 k :
  rd (a1 ++ a2) k =
  if decide (k < Z.of_nat (length a1)) then rd a1 k
  else rd a2 (k - Z.of_nat (length a1)).
Proof.
  unfold rd. case_decide as Hk.
  - destruct (Z.ltb_spec k 0); [done|]. apply lookup_app_l. lia.
  - destruct (Z.ltb_spec k 0); [lia|].
    destruct (Z.ltb_spec (k - Z.of_nat (length a1)) 0); [lia|].
    rewrite lookup_app_r by lia. f_equal. lia.
Qed.

(** Replacing a window of the array by a permutation of itself. *)
Lemma window_rearranged pre seg seg' post :
  seg' ≡ₚ seg →
  rearranged (Z.of_nat (length pre))
             (Z.of_nat (length pre) + Z.of_nat (length seg) - 1)
             (pre ++ seg ++ post) (pre ++ seg' ++ post).
Proof.
  intros Hp. pose proof (Permutation_length Hp) as Hlen.
  split; [|split; [|split]].
  - rewrite !length_app. lia.
  - by rewrite Hp.
  - intros k Hk. rewrite !rd_app. case_decide; [done|].
    rewrite Hlen. case_decide; [lia|done].
  - intros k v Hk Hv. rewrite rd_app in Hv. case_decide; [lia|].
    rewrite rd_app in Hv. case_decide; [|lia].
    apply rd_Some in Hv as [_ Hv]. apply list_elem_of_lookup_2 in Hv.
    rewrite Hp in Hv. apply list_elem_of_lookup_1 in Hv as [idx Hidx].
    pose proof (lookup_lt_Some _ _ _ Hidx).
    exists (Z.of_nat (length pre) + Z.of_nat idx). split; [lia|].
    rewrite rd_app. case_decide; [lia|].
    rewrite rd_app. case_decide; [|lia].
    apply rd_Some. split; [lia|].
    replace (Z.to_nat _) with idx by lia. done.
Qed.

Lemma window_sorted pre seg post x y vx vy :
  StronglySorted (key_le key) seg →
  Z.of_nat (length pre) ≤ x → x < y →
  y < Z.of_nat (length pre) + Z.of_nat (length seg) →
  rd (pre ++ seg ++ post) x = Some vx →
  rd (pre ++ seg ++ post) y = Some vy →
  key vx ≤ key vy.
Proof.
  intros Hs Hx Hxy Hy Hvx Hvy.
  rewrite rd_app in Hvx, Hvy. do 2 (case_decide; [lia|]).
  rewrite rd_app in Hvx, Hvy. do 2 (case_decide; [|lia]).
  apply rd_Some in Hvx as [_ Hvx]. apply rd_Some in Hvy as [_ Hvy].
  eapply (strongly_sorted_nondescending key seg Hs); [|exact Hvx|exact Hvy]. lia.
Qed.

(** A cut outside a window survives any rearrangement of the window. *)
Lemma cut_rearranged lo hi a a' c :
  rearranged lo hi a a' → c ≤ lo ∨ hi < c → cut key a c → cut key a' c.
Proof.
  intros (_ & _ & Hout & Hwin) Hc Hcut x y vx vy Hxy Hvx Hvy.
  assert (∃ x', x' < c ∧ rd a x' = Some vx) as (x' & Hx' & Hvx').
  { destruct (decide (lo ≤ x ≤ hi)) as [Hin|Hnin].
    - destruct (Hwin x vx Hin Hvx) as (x' & ? & ?). exists x'. split; [lia|done].
    - exists x. split; [lia|]. rewrite <- Hout; [done|lia]. }
  assert (∃ y', c ≤ y' ∧ rd a y' = Some vy) as (y' & Hy' & Hvy').
  { destruct (decide (lo ≤ y ≤ hi)) as [Hin|Hnin].
    - destruct (Hwin y vy Hin Hvy) as (y' & ? & ?). exists y'. split; [lia|done].
    - exists y. split; [lia|]. rewrite <- Hout; [done|lia]. }
  apply (Hcut x' y' vx vy); [lia|done|done].
Qed.

(** Between two cuts, an offset that separates smaller from larger keys
    is a cut. *)
Lemma cut_inside lo hi a c :
  lo ≤ c ≤ hi + 1 → cut key a lo → cut key a (hi + 1) →
  (∀ x y vx vy, lo ≤ x < c → c ≤ y ≤ hi →
                rd a x = Some vx → rd a y = Some vy → key vx ≤ key vy) →
  cut key a c.
Proof.
  intros Hc Hlo Hhi Hin x y vx vy Hxy Hvx Hvy.
  destruct (decide (x < lo)); [apply (Hlo x y vx vy); [lia|done|done]|].
  destruct (decide (hi < y)); [apply (Hhi x y vx vy); [lia|done|done]|].
  apply (Hin x y vx vy); [lia|lia|done|done].
Qed.

Lemma cuts_nondescending a :
  (∀ c, 0 ≤ c ≤ Z.of_nat (length a) → cut key a c) → nondescending key a.
Proof.
  intros H i j x y Hij Hx Hy.
  pose proof (lookup_lt_Some _ _ _ Hy).
  apply (H (Z.of_nat j) ltac:(lia) (Z.of_nat i) (Z.of_nat j) x y); [lia| |];
    apply rd_Some; rewrite Nat2Z.id; (split; [lia|done]).
Qed.
End Cuts.

(** ** One iteration of the outer loop *)

Section Step.
Context {T : Type} (key : T → Z).
Implicit Types (a : list T) (s : state T) (pend : list (Z * Z)).

Lemma inv_length a0 s pend :
  sort_inv key a0 s pend → length (arr s) = length a0.
Proof. intros (Hp & _). by apply Permutation_length. Qed.

Lemma inv_bounds a0 s pend :
  sort_inv key a0 s pend →
  1 ≤ l s ∧ l s ≤ ir s + 1 ∧ ir s ≤ Z.of_nat (length (arr s)).
Proof.
  intros Hinv. rewrite (inv_length _ _ _ Hinv).
  destruct Hinv as (_ & _ & _ & _ & _ & _ & Hb & _).
  apply Forall_cons in Hb as [Hb _]. exact Hb.
Qed.

(** The two ends of the working subarray are cuts. *)
Lemma inv_boundary_cuts a0 s pend :
  sort_inv key a0 s pend →
  cut key (arr s) (l s - 1) ∧ cut key (arr s) (ir s).
Proof.
  intros (_ & _ & _ & _ & _ & _ & Hb & Hsep & Hcut & _).
  apply Forall_cons in Hb as [Hb _]. simpl in Hb.
  destruct Hsep as [Hap _]. rewrite Forall_forall in Hap.
  split; apply Hcut; try lia.
  - intros sg [->|Hin]%elem_of_cons; unfold inside; simpl; [lia|].
    specialize (Hap _ Hin). unfold apart in Hap. simpl in Hap. lia.
  - intros sg [->|Hin]%elem_of_cons; unfold inside; simpl; [lia|].
    specialize (Hap _ Hin). unfold apart in Hap. simpl in Hap. lia.
Qed.

Lemma stack_holds_insert st pend idx v :
  stack_holds st pend → (2 * length pend < idx)%nat →
  stack_holds (<[idx := v]> st) pend.
Proof.
  induction pend as [|[pl pr] rest IH]; [done|].
  simpl. intros (H1 & H2 & H3) Hidx.
  rewrite !list_lookup_insert_ne by lia. split; [done|]. split; [done|].
  apply IH; [done|lia].
Qed.

(** The working subarray as a window of the array. *)
Lemma window_split (a : list T) (lo len : Z) :
  0 ≤ lo → 0 ≤ len → lo + len ≤ Z.of_nat (length a) →
  ∃ pre seg post,
    a = pre ++ seg ++ post ∧
    Z.of_nat (length pre) = lo ∧ Z.of_nat (length seg) = len.
Proof.
  intros Hlo Hlen Hle.
  exists (take (Z.to_nat lo) a),
         (take (Z.to_nat len) (drop (Z.to_nat lo) a)),
         (drop (Z.to_nat len) (drop (Z.to_nat lo) a)).
  split; [by rewrite !take_drop|].
  rewrite !length_take, length_drop. lia.
Qed.

(** The insertion sort of the working subarray finishes it: every offset
    inside it becomes a cut. *)
Lemma insertion_phase a0 s pend :
  sort_inv key a0 s pend →
  ∃ m',
    run (insertion_sort key (ir s - l s + 1) (l s - 1)) (arr s) = Some (tt, m') ∧
    cells m' ≡ₚ a0 ∧
    rearranged (l s - 1) (ir s - 1) (arr s) (cells m') ∧
    (∀ c, 0 ≤ c ≤ Z.of_nat (length a0) →
          (∀ sg, sg ∈ pend → ¬ inside c sg) → cut key (cells m') c).
Proof.
  intros Hinv.
  pose proof (inv_bounds _ _ _ Hinv) as (Hl & Hlir & Hir).
  pose proof (inv_boundary_cuts _ _ _ Hinv) as (Hclo & Hchi).
  pose proof (inv_length _ _ _ Hinv) as Hlen.
  destruct Hinv as (Hperm & _ & _ & _ & _ & _ & _ & _ & Hcut & _).
  destruct (window_split (arr s) (l s - 1) (ir s - l s + 1))
    as (pre & seg & post & Ha & Hpre & Hseg); [lia..|].
  destruct (insertion_sort_spec key pre seg post (Mem (arr s) []) Ha)
    as (seg' & m' & Hrun & Hc' & Hsorted & Hp' & _).
  rewrite Hpre, Hseg in Hrun.
  pose proof (window_rearranged pre seg seg' post Hp') as Hre.
  rewrite <- Ha, <- Hc', Hpre, Hseg in Hre.
  replace (l s - 1 + (ir s - l s + 1) - 1) with (ir s - 1) in Hre by lia.
  exists m'. split; [exact Hrun|]. split; [|split; [exact Hre|]].
  { rewrite <- Hperm. by destruct Hre as (_ & ? & _). }
  intros c Hc Hnin.
  destruct (decide (inside c (l s, ir s))) as [Hin|Hout].
  - unfold inside in Hin. simpl in Hin.
    apply (cut_inside key (l s - 1) (ir s - 1)); [lia| | |].
    + eapply cut_rearranged; [exact Hre|lia|done].
    + replace (ir s - 1 + 1) with (ir s) by lia.
      eapply cut_rearranged; [exact Hre|lia|done].
    + intros x y vx vy Hx Hy. rewrite Hc'.
      apply (window_sorted key pre seg' post x y vx vy Hsorted); [lia|lia|].
      rewrite (Permutation_length Hp'). lia.
  - eapply cut_rearranged; [exact Hre| |].
    + unfold inside in Hout. simpl in Hout. lia.
    + apply Hcut; [lia|]. intros sg [->|Hsg]%elem_of_cons; [done|]. by apply Hnin.
Qed.

Lemma stack_rd_Some st (p : nat) v :
  st !! p = Some (Some v) → stack_rd st (Z.of_nat p) = Some v.
Proof.
  intros H. unfold stack_rd. destruct (Z.ltb_spec (Z.of_nat p) 0); [lia|].
  by rewrite Nat2Z.id, H.
Qed.

(** An iteration that takes the insertion branch. *)
Lemma step_insertion a0 s pend :
  sort_inv key a0 s pend → ir s - l s < INSERTION_THRESHOLD →
  match pend with
  | [] =>
      ∃ a', sort_step key s = Some (Break a', [Insertion]) ∧
            a' ≡ₚ a0 ∧ nondescending key a'
  | top :: rest =>
      ∃ s', sort_step key s = Some (Continue s', [Insertion; Pop]) ∧
            sort_inv key a0 s' rest ∧
            (l s', ir s') = top ∧ stack s' = stack s
  end.
Proof.
  intros Hinv Hsmall.
  destruct (insertion_phase a0 s pend Hinv) as (m' & Hrun & Hperm' & Hre & Hcuts).
  destruct Hinv as (Hperm & Hslen & Hs0 & Hs49 & Hsp & Hst & Hb & Hsep & Hcut & Hsz & Hd).
  unfold sort_step. rewrite (proj2 (Z.ltb_lt _ _) Hsmall), Hrun.
  destruct pend as [|[pl pr] rest].
  - simpl in Hsp. rewrite Hsp. simpl. exists (cells m').
    split; [done|]. split; [done|].
    apply cuts_nondescending. intros c Hc. apply Hcuts.
    + by rewrite <- (Permutation_length Hperm').
    + intros sg Hsg. by apply elem_of_nil in Hsg.
  - destruct Hst as (Hpl & Hpr & Hst). simpl in Hsp.
    rewrite (proj2 (Z.eqb_neq _ _)) by lia.
    apply stack_rd_Some in Hpr as Hrd2. apply stack_rd_Some in Hpl as Hrd1.
    replace (Z.of_nat (2 * length rest + 2)) with (stackp s) in Hrd2 by lia.
    replace (Z.of_nat (2 * length rest + 1)) with (stackp s - 1) in Hrd1 by lia.
    rewrite Hrd2, Hrd1. cbn [mbind option_bind].
    eexists. split; [done|]. split; [|done].
    unfold sort_inv. cbn [arr ir l stack stackp].
    split; [done|]. split; [done|]. split; [done|]. split; [done|].
    split; [lia|]. split; [done|].
    split; [by apply Forall_cons in Hb as [_ Hb]|].
    split; [by destruct Hsep as [_ Hsep]|].
    split; [done|]. simpl in Hd. destruct Hd as (_ & Hd1 & Hd2). done.
Qed.

(** Median of three followed by the partition scan, on a working
    subarray long enough to be partitioned. *)
Lemma partition_phase a0 s pend :
  sort_inv key a0 s pend → INSERTION_THRESHOLD ≤ ir s - l s →
  ∃ i j m' piv,
    run (median3 key (l s) (ir s);; partition_scan key (l s) (ir s)) (arr s)
      = Some ((i, j), m') ∧
    rearranged (l s - 1) (ir s - 1) (arr s) (cells m') ∧
    l s + 1 ≤ j ∧ j < i ∧ i ≤ ir s ∧
    partitioned key piv (l s - 1) (ir s) i j (cells m').
Proof.
  intros Hinv Hbig. unfold INSERTION_THRESHOLD in Hbig.
  pose proof (inv_bounds _ _ _ Hinv) as (Hl & Hlir & Hir).
  pose proof (midpoint_range (l s) (ir s) Hl ltac:(lia)) as Hmid.
  destruct (rd_defined (arr s) (l s - 1)) as [x Hx]; [lia|].
  destruct (rd_defined (arr s) (Z.quot (l s + ir s) 2 - 1)) as [y Hy]; [lia|].
  destruct (rd_defined (arr s) (ir s - 1)) as [z Hz]; [lia|].
  destruct (median3_spec key (l s) (ir s) (Mem (arr s) []) x y z)
    as (m1 & u & v & w & Hrun1 & Hu & Hv & Hw & Hord & _ & _ & _ & Hre1);
    [lia|lia|done..|].
  simpl in Hre1. pose proof Hre1 as (Hlen1 & _).
  destruct (partition_scan_spec key (l s) (ir s) m1 u v w)
    as (i & j & m' & Hrun2 & Hre2 & Hlj & Hji & Hiir & Hpart & _);
    [lia|lia|lia|done|done|done|lia|lia|].
  exists i, j, m', v. unfold run.
  erewrite bind_step by exact Hrun1. split; [exact Hrun2|].
  split; [|done].
  eapply rearranged_trans; [exact Hre1|].
  eapply rearranged_mono; [exact Hre2|lia|lia].
Qed.

Lemma partitioned_order piv lo ir i j (c' : list T) c x y vx vy :
  partitioned key piv lo ir i j c' →
  j - 1 ≤ c ≤ i - 1 → lo ≤ x < c → c ≤ y ≤ ir - 1 →
  rd c' x = Some vx → rd c' y = Some vy → key vx ≤ key vy.
Proof.
  intros (Hlow & Heq & Hhigh) Hc Hx Hy Hvx Hvy.
  assert (key vx ≤ key piv).
  { destruct (decide (x ≤ j - 2)).
    - apply (Hlow x vx); [lia|done].
    - pose proof (Heq x vx ltac:(lia) Hvx) as E. simpl in E. lia. }
  assert (key piv ≤ key vy).
  { destruct (decide (i - 1 ≤ y)).
    - apply (Hhigh y vy); [lia|done].
    - pose proof (Heq y vy ltac:(lia) Hvy) as E. simpl in E. lia. }
  lia.
Qed.

(** Pushing one part of the partitioned subarray and continuing with the
    other keeps the invariant. *)
Lemma push_inv a0 s pend a' cl cir pl pr :
  sort_inv key a0 s pend →
  rearranged (l s - 1) (ir s - 1) (arr s) a' →
  l s ≤ cl ∧ cl ≤ cir + 1 ∧ cir ≤ ir s →
  l s ≤ pl ∧ pl ≤ pr + 1 ∧ pr ≤ ir s →
  apart (cl, cir) (pl, pr) →
  (∀ c x y vx vy,
      inside c (l s, ir s) → ¬ inside c (cl, cir) → ¬ inside c (pl, pr) →
      l s - 1 ≤ x < c → c ≤ y ≤ ir s - 1 →
      rd a' x = Some vx → rd a' y = Some vy → key vx ≤ key vy) →
  INSERTION_THRESHOLD ≤ ir s - l s →
  (cir - cl + 1) + (pr - pl + 1) ≤ ir s - l s →
  cir - cl ≤ pr - pl →
  (2 * length pend + 2 < NSTACK)%nat →
  sort_inv key a0
    {| arr := a'; ir := cir; l := cl;
       stack := <[(2 * length pend + 1)%nat := Some pl]>
                  (<[(2 * length pend + 2)%nat := Some pr]> (stack s));
       stackp := stackp s + 2 |}
    ((pl, pr) :: pend).
Proof.
  intros Hinv Hre Hcur Hpush Hap Hin Hbig Hsum Hsmaller Hcap.
  pose proof (inv_bounds _ _ _ Hinv) as (Hl & Hlir & Hir).
  pose proof (inv_boundary_cuts _ _ _ Hinv) as (Hclo & Hchi).
  destruct Hinv as (Hperm & Hslen & Hs0 & Hs49 & Hsp & Hst & Hb & Hsep & Hcut & Hsz & Hd).
  unfold NSTACK in *. unfold INSERTION_THRESHOLD in *.
  unfold sort_inv. cbn [arr ir l stack stackp].
  split; [|split; [|split; [|split; [|split; [|split; [|split; [|split; [|split; [|split]]]]]]]]].
  - rewrite <- Hperm. by destruct Hre as (_ & ? & _).
  - by rewrite !length_insert.
  - rewrite !list_lookup_insert_ne by lia. done.
  - rewrite !list_lookup_insert_ne by lia. done.
  - rewrite length_cons. lia.
  - cbn [stack_holds]. split; [|split].
    + apply list_lookup_insert_eq. rewrite length_insert. lia.
    + rewrite list_lookup_insert_ne by lia. apply list_lookup_insert_eq. lia.
    + apply stack_holds_insert; [|lia]. apply stack_holds_insert; [done|lia].
  - apply Forall_cons in Hb as [Hb0 Hb]. simpl in Hb0.
    repeat (apply Forall_cons; split); simpl; [lia|lia|done].
  - destruct Hsep as [Hapart Hsep]. cbn [separated].
    assert (∀ q1 q2, l s ≤ q1 → q2 ≤ ir s →
              Forall (apart (q1, q2)) pend) as Hsub.
    { intros q1 q2 ? ?. eapply Forall_impl; [exact Hapart|].
      intros sg. unfold apart. simpl. lia. }
    split; [|split; [|done]].
    + apply Forall_cons. split; [done|]. apply Hsub; lia.
    + apply Hsub; lia.
  - intros c Hc Hnin.
    assert (Hncur : ¬ inside c (cl, cir)) by (apply Hnin; left).
    assert (Hnpush : ¬ inside c (pl, pr)) by (apply Hnin; right; left).
    destruct (decide (inside c (l s, ir s))) as [Hi|Ho].
    + pose proof Hi as Hi'. unfold inside in Hi'. simpl in Hi'.
      apply (cut_inside key (l s - 1) (ir s - 1)); [lia| | |].
      * eapply cut_rearranged; [exact Hre|lia|done].
      * replace (ir s - 1 + 1) with (ir s) by lia.
        eapply cut_rearranged; [exact Hre|lia|done].
      * intros x y vx vy Hx Hy. by apply (Hin c x y vx vy).
    + eapply cut_rearranged; [exact Hre| |].
      * unfold inside in Ho. simpl in Ho. lia.
      * apply Hcut; [lia|]. intros sg [->|Hsg]%elem_of_cons; [done|].
        apply Hnin. by do 2 right.
  - rewrite length_cons, Nat2Z.inj_succ, Z.pow_succ_r by lia.
    assert (0 < 2 ^ Z.of_nat (length pend)) by (apply Z.pow_pos_nonneg; lia).
    nia.
  - cbn [depth_ok]. unfold INSERTION_THRESHOLD.
    assert (0 < 2 ^ Z.of_nat (length pend)) by (apply Z.pow_pos_nonneg; lia).
    split; [nia|]. split; [nia|done].
Qed.

Lemma stack_wr_defined st (k : nat) v :
  (k < length st)%nat → stack_wr st (Z.of_nat k) v = Some (<[k := Some v]> st).
Proof.
  intros Hk. unfold stack_wr.
  destruct (Z.leb_spec 0 (Z.of_nat k)); [|lia].
  destruct (Z.ltb_spec (Z.of_nat k) (Z.of_nat (length st))); [|lia].
  simpl. by rewrite Nat2Z.id.
Qed.

Lemma stack_wr_overflow st (k : nat) v :
  (length st ≤ k)%nat → stack_wr st (Z.of_nat k) v = None.
Proof.
  intros Hk. unfold stack_wr.
  destruct (Z.ltb_spec (Z.of_nat k) (Z.of_nat (length st))); [lia|].
  by rewrite andb_false_r.
Qed.

(** An iteration that takes the partition branch: it pushes one pair
    when the stack has room for it, and is undefined when it has not. *)
Lemma step_partition a0 s pend :
  sort_inv key a0 s pend → INSERTION_THRESHOLD ≤ ir s - l s →
  ∃ s' pushed,
    weight (l s', ir s') + weight pushed < weight (l s, ir s) ∧
    ((2 * length pend + 2 < NSTACK)%nat →
     sort_step key s = Some (Continue s', [Partition; Push]) ∧
     sort_inv key a0 s' (pushed :: pend)) ∧
    ((NSTACK ≤ 2 * length pend + 2)%nat → sort_step key s = None).
Proof.
  intros Hinv Hbig.
  destruct (partition_phase a0 s pend Hinv Hbig)
    as (i & j & m' & piv & Hrun & Hre & Hlj & Hji & Hiir & Hpart).
  pose proof (inv_bounds _ _ _ Hinv) as (Hl & Hlir & Hir).
  pose proof Hinv as (_ & Hslen & _ & _ & Hsp & _).
  assert (Hp2 : stackp s + 2 = Z.of_nat (2 * length pend + 2)) by lia.
  assert (Hp1 : stackp s + 2 - 1 = Z.of_nat (2 * length pend + 1)) by lia.
  assert (Hinner : ∀ c x y vx vy,
             inside c (l s, ir s) → ¬ inside c (l s, j - 1) → ¬ inside c (i, ir s) →
             l s - 1 ≤ x < c → c ≤ y ≤ ir s - 1 →
             rd (cells m') x = Some vx → rd (cells m') y = Some vy →
             key vx ≤ key vy).
  { unfold inside. simpl. intros c x y vx vy ? ? ? ? ?.
    apply (partitioned_order piv (l s - 1) (ir s) i j (cells m') c);
      [done|lia|lia|lia]. }
  unfold sort_step.
  rewrite (proj2 (Z.ltb_ge _ _) Hbig), Hrun. cbn zeta. rewrite Hp1, Hp2.
  destruct (Z.leb_spec (j - l s) (ir s - i + 1)) as [Hle|Hgt].
  - eexists {| arr := cells m'; ir := j - 1; l := l s;
               stack := <[(2 * length pend + 1)%nat := Some i]>
                          (<[(2 * length pend + 2)%nat := Some (ir s)]> (stack s));
               stackp := stackp s + 2 |}, (i, ir s).
    split; [unfold weight; simpl; lia|]. split.
    + intros Hcap. rewrite stack_wr_defined by lia. cbn [mbind option_bind].
      rewrite stack_wr_defined by (rewrite length_insert; lia).
      cbn [mbind option_bind]. rewrite Hp2. split; [done|].
      rewrite <- Hp2.
      apply push_inv; try done; try lia;
        try (unfold apart; simpl; lia);
        try (intros c x y vx vy ? ? ?; by apply Hinner).
    + intros Hcap. by rewrite stack_wr_overflow by lia.
  - eexists {| arr := cells m'; ir := ir s; l := i;
               stack := <[(2 * length pend + 1)%nat := Some (l s)]>
                          (<[(2 * length pend + 2)%nat := Some (j - 1)]> (stack s));
               stackp := stackp s + 2 |}, (l s, j - 1).
    split; [unfold weight; simpl; lia|]. split.
    + intros Hcap. rewrite stack_wr_defined by lia. cbn [mbind option_bind].
      rewrite stack_wr_defined by (rewrite length_insert; lia).
      cbn [mbind option_bind]. rewrite Hp2. split; [done|].
      rewrite <- Hp2.
      apply push_inv; try done; try lia;
        try (unfold apart; simpl; lia);
        try (intros c x y vx vy ? ? ?; by apply Hinner).
    + intros Hcap. by rewrite stack_wr_overflow by lia.
Qed.
End Step.

(** ** The outer loop *)

Section Loop.
Context {T : Type} (key : T → Z).
Implicit Types (a : list T) (s : state T) (pend : list (Z * Z)).

Lemma work_nonneg (segs : list (Z * Z)) :
  Forall (λ sg, sg.1 ≤ sg.2 + 1) segs → 0 ≤ work segs.
Proof.
  induction 1 as [|sg segs Hsg _ IH]; simpl; [done|]. unfold weight. lia.
Qed.

Lemma inv_work_pos a0 s pend :
  sort_inv key a0 s pend → 1 ≤ weight (l s, ir s) ∧ 0 ≤ work pend.
Proof.
  intros (_ & _ & _ & _ & _ & _ & Hb & _).
  apply Forall_cons in Hb as [Hb0 Hb]. simpl in Hb0. split.
  - unfold weight. simpl. lia.
  - apply work_nonneg. eapply Forall_impl; [exact Hb|]. simpl. lia.
Qed.

(** The invariant holds on entry. *)
Lemma sort_init_inv a :
  sort_inv key a (sort_init (Z.of_nat (length a)) a) [].
Proof.
  unfold sort_inv, sort_init. cbn [arr ir l stack stackp].
  split; [done|]. split; [apply length_replicate|].
  split; [done|]. split; [done|]. split; [done|]. split; [done|].
  split; [|split; [|split; [|split]]].
  - apply Forall_cons. split; [simpl; lia|constructor].
  - simpl. split; [constructor|done].
  - intros c Hc Hnin x y vx vy Hxy Hvx Hvy.
    apply rd_range in Hvx, Hvy.
    specialize (Hnin (1, Z.of_nat (length a)) ltac:(left)).
    unfold inside in Hnin. simpl in Hnin. lia.
  - simpl. lia.
  - done.
Qed.

(** Stack depth is logarithmic: with [k] pairs on the stack the array has
    at least [(INSERTION_THRESHOLD + 1) * 2^(k-1)] cells. *)
Lemma inv_depth a0 s pend :
  sort_inv key a0 s pend → pend ≠ [] →
  (INSERTION_THRESHOLD + 1) * 2 ^ (Z.of_nat (length pend) - 1)
    ≤ Z.of_nat (length a0).
Proof.
  intros (_ & _ & _ & _ & _ & _ & _ & _ & _ & _ & Hd) Hne.
  destruct pend as [|[pl pr] rest]; [done|]. destruct Hd as (Hd & _).
  rewrite length_cons. replace (Z.of_nat (S (length rest)) - 1)
    with (Z.of_nat (length rest)) by lia.
  assert (0 < 2 ^ Z.of_nat (length rest)) by (apply Z.pow_pos_nonneg; lia).
  unfold INSERTION_THRESHOLD in *. lia.
Qed.

Lemma pow2_bound (c k b : Z) :
  0 < c → 0 ≤ k → 0 ≤ b → c * 2 ^ k < c * 2 ^ b → k < b.
Proof.
  intros Hc Hk Hb H. destruct (decide (k < b)); [done|].
  assert (2 ^ b ≤ 2 ^ k) by (apply Z.pow_le_mono_r; lia). nia.
Qed.

(** The push of a partition step has room whenever the array has fewer
    than [12 * 2^24 - 1] cells. *)
Lemma inv_capacity a0 s pend :
  sort_inv key a0 s pend → INSERTION_THRESHOLD ≤ ir s - l s →
  Z.of_nat (length a0) < 12 * 2 ^ 24 - 1 →
  (2 * length pend + 2 < NSTACK)%nat.
Proof.
  intros (_ & _ & _ & _ & _ & _ & _ & _ & _ & Hsz & _) Hbig Hn.
  unfold INSERTION_THRESHOLD, NSTACK in *.
  assert (0 < 2 ^ Z.of_nat (length pend)) by (apply Z.pow_pos_nonneg; lia).
  assert (Z.of_nat (length pend) < 24); [|lia].
  apply (pow2_bound 12); [lia|lia|lia|]. nia.
Qed.

(** Every state the loop reaches satisfies the invariant. *)
Lemma sort_reach_inv a0 k :
  ∀ s pend s',
    sort_inv key a0 s pend → sort_reach key k s = Some s' →
    ∃ pend', sort_inv key a0 s' pend'.
Proof.
  induction k as [|k IH]; intros s pend s' Hinv Hreach; simpl in Hreach.
  { injection Hreach as <-. eauto. }
  destruct (sort_step key s) as [[[b|s1] ev]|] eqn:Hstep; try done.
  destruct (decide (ir s - l s < INSERTION_THRESHOLD)) as [Hsmall|Hbig].
  - pose proof (step_insertion key a0 s pend Hinv Hsmall) as Hs.
    destruct pend as [|top rest].
    + destruct Hs as (a' & Hs & _). congruence.
    + destruct Hs as (s2 & Hs & Hinv2 & _).
      rewrite Hstep in Hs. injection Hs as <-. eauto.
  - destruct (step_partition key a0 s pend Hinv ltac:(lia))
      as (s2 & pushed & _ & Hcap & Hover).
    destruct (decide (2 * length pend + 2 < NSTACK)%nat) as [Hc|Hc].
    + destruct (Hcap Hc) as (Hs & Hinv2).
      rewrite Hstep in Hs. injection Hs as <- _. eauto.
    + rewrite Hover in Hstep by lia. done.
Qed.

(** An iteration from a state that satisfies the invariant is defined. *)
Lemma sort_step_defined a0 s pend :
  sort_inv key a0 s pend → Z.of_nat (length a0) < 12 * 2 ^ 24 - 1 →
  is_Some (sort_step key s).
Proof.
  intros Hinv Hn.
  destruct (decide (ir s - l s < INSERTION_THRESHOLD)) as [Hsmall|Hbig].
  - pose proof (step_insertion key a0 s pend Hinv Hsmall) as Hs.
    destruct pend as [|top rest].
    + destruct Hs as (a' & -> & _). eauto.
    + destruct Hs as (s2 & -> & _). eauto.
  - destruct (step_partition key a0 s pend Hinv ltac:(lia))
      as (s2 & pushed & _ & Hcap & _).
    destruct (Hcap (inv_capacity a0 s pend Hinv ltac:(lia) Hn)) as (-> & _). eauto.
Qed.

(** Total correctness of the loop: with fuel for the work that is left
    it ends, and the array it leaves is a sorted permutation of the
    input. *)
Lemma sort_loop_spec a0 :
  Z.of_nat (length a0) < 12 * 2 ^ 24 - 1 →
  ∀ fuel s pend,
    sort_inv key a0 s pend →
    work ((l s, ir s) :: pend) ≤ Z.of_nat fuel →
    ∃ a' evs,
      sort_loop key fuel s = Some (a', evs) ∧
      a' ≡ₚ a0 ∧ nondescending key a'.
Proof.
  intros Hn. induction fuel as [|fuel IH]; intros s pend Hinv Hwork.
  { pose proof (inv_work_pos a0 s pend Hinv). simpl in Hwork. lia. }
  pose proof (inv_work_pos a0 s pend Hinv) as (Hw1 & Hw2).
  cbn [sort_loop].
  destruct (decide (ir s - l s < INSERTION_THRESHOLD)) as [Hsmall|Hbig].
  - pose proof (step_insertion key a0 s pend Hinv Hsmall) as Hs.
    destruct pend as [|top rest].
    + destruct Hs as (a' & -> & Hp & Hsorted). eauto.
    + destruct Hs as (s2 & -> & Hinv2 & Htop & _).
      destruct (IH s2 rest Hinv2) as (a' & evs & -> & Hp & Hsorted).
      { rewrite Htop. simpl in Hwork |- *. lia. }
      cbn [mbind option_bind]. eauto.
  - destruct (step_partition key a0 s pend Hinv ltac:(lia))
      as (s2 & pushed & Hweight & Hcap & _).
    destruct (Hcap (inv_capacity a0 s pend Hinv ltac:(lia) Hn)) as (-> & Hinv2).
    destruct (IH s2 (pushed :: pend) Hinv2) as (a' & evs & -> & Hp & Hsorted).
    { simpl in Hwork |- *. lia. }
    cbn [mbind option_bind]. eauto.
Qed.

(** Partial correctness of the loop, whatever the size of the array:
    whenever it returns, the array it leaves is a sorted permutation of
    the input. *)
Lemma sort_loop_sound a0 :
  ∀ fuel s pend a' evs,
    sort_inv key a0 s pend →
    sort_loop key fuel s = Some (a', evs) →
    a' ≡ₚ a0 ∧ nondescending key a'.
Proof.
  induction fuel as [|fuel IH]; intros s pend a' evs Hinv Hrun; [done|].
  cbn [sort_loop] in Hrun.
  destruct (decide (ir s - l s < INSERTION_THRESHOLD)) as [Hsmall|Hbig].
  - pose proof (step_insertion key a0 s pend Hinv Hsmall) as Hs.
    destruct pend as [|top rest].
    + destruct Hs as (a1 & Hs & Hp & Hsorted). rewrite Hs in Hrun.
      by injection Hrun as <- _.
    + destruct Hs as (s2 & Hs & Hinv2 & _). rewrite Hs in Hrun.
      destruct (sort_loop key fuel s2) as [[a1 evs1]|] eqn:E; [|done].
      cbn in Hrun. injection Hrun as <- _. by apply (IH s2 rest a1 evs1).
  - destruct (step_partition key a0 s pend Hinv ltac:(lia))
      as (s2 & pushed & _ & Hcap & Hover).
    destruct (decide (2 * length pend + 2 < NSTACK)%nat) as [Hc|Hc].
    + destruct (Hcap Hc) as (Hs & Hinv2). rewrite Hs in Hrun.
      destruct (sort_loop key fuel s2) as [[a1 evs1]|] eqn:E; [|done].
      cbn in Hrun. injection Hrun as <- _.
      by apply (IH s2 (pushed :: pend) a1 evs1).
    + rewrite Hover in Hrun by lia. done.
Qed.

(** A state from which an iteration is undefined is never left. *)
Lemma sort_reach_undefined k :
  ∀ s s',
    sort_reach key k s = Some s' → sort_step key s' = None →
    ∀ fuel, sort_loop key fuel s = None.
Proof.
  induction k as [|k IH]; intros s s' Hreach Hstep fuel;
    (destruct fuel as [|fuel]; [done|]); cbn [sort_loop sort_reach] in *.
  - injection Hreach as <-. by rewrite Hstep.
  - destruct (sort_step key s) as [[[b|s1] ev]|]; try done.
    by rewrite (IH s1 s' Hreach Hstep fuel).
Qed.
End Loop.

(** ** The array within a longer one *)

Section Frame.
Context {T : Type} (key : T → Z) (tail : list T).
Implicit Types (m : mem T) (s : state T).

Lemma rd_grow (c : list T) p v : rd c p = Some v → rd (c ++ tail) p = Some v.
Proof.
  intros H. pose proof (rd_range _ _ _ H). rewrite rd_app. by case_decide; [|lia].
Qed.

Lemma wr_grow (c c' : list T) p v :
  wr c p v = Some c' → wr (c ++ tail) p v = Some (c' ++ tail).
Proof.
  intros [Hp ->]%wr_Some. rewrite wr_defined by (rewrite length_app; lia).
  f_equal. apply insert_app_l. lia.
Qed.

Lemma carries_ret {A} (x : A) : carries tail (mret x : M T A) (mret x).
Proof. by intros m r m' [= <- <-]. Qed.

Lemma carries_fail {A} (c' : M T A) : carries tail (fail : M T A) c'.
Proof. intros m r m' H. discriminate. Qed.

Lemma carries_bind {A B} (c c' : M T A) (k k' : A → M T B) :
  carries tail c c' → (∀ x, carries tail (k x) (k' x)) →
  carries tail (c ≫= k) (c' ≫= k').
Proof.
  intros Hc Hk m r m' H. unfold mbind, M_bind in *.
  destruct (c m) as [[x m1]|] eqn:E; [|done].
  rewrite (Hc _ _ _ E). by apply Hk.
Qed.

Lemma carries_size {B} (k k' : nat → M T B) :
  (∀ sz sz', (sz ≤ sz')%nat → carries tail (k sz) (k' sz')) →
  carries tail (size ≫= k) (size ≫= k').
Proof.
  intros Hk m r m' H. unfold mbind, M_bind, size in *.
  eapply Hk; [|exact H]. simpl. rewrite length_app. lia.
Qed.

Lemma carries_load p : carries tail (load p : M T T) (load p).
Proof.
  intros m r m' H. unfold load in *.
  destruct (rd (cells m) p) as [v|] eqn:E; [|done]. injection H as <- <-.
  simpl. by rewrite (rd_grow _ _ _ E).
Qed.

Lemma carries_store p v : carries tail (store p v : M T unit) (store p v).
Proof.
  intros m r m' H. unfold store in *.
  destruct (wr (cells m) p v) as [c'|] eqn:E; [|done]. injection H as <- <-.
  simpl. by rewrite (wr_grow _ _ _ _ E).
Qed.

Lemma carries_SWAP p q : carries tail (SWAP p q : M T unit) (SWAP p q).
Proof.
  unfold SWAP.
  apply carries_bind; [apply carries_load|]. intros x.
  apply carries_bind; [apply carries_load|]. intros y.
  apply carries_bind; [apply carries_store|]. intros _.
  apply carries_store.
Qed.

Lemma carries_SWAP_IF_GREATER p q :
  carries tail (SWAP_IF_GREATER key p q) (SWAP_IF_GREATER key p q).
Proof.
  unfold SWAP_IF_GREATER.
  apply carries_bind; [apply carries_load|]. intros x.
  apply carries_bind; [apply carries_load|]. intros y.
  destruct (_ <? _); [apply carries_SWAP|apply carries_ret].
Qed.

Lemma carries_shift_loop fuel arr value :
  ∀ j, carries tail (shift_loop key fuel arr value j)
                    (shift_loop key fuel arr value j).
Proof.
  induction fuel as [|fuel IH]; intros j; [apply carries_fail|].
  cbn [shift_loop].
  apply carries_bind; [apply carries_load|]. intros x.
  destruct (_ <? _); [|apply carries_ret].
  apply carries_bind; [apply carries_load|]. intros y.
  apply carries_bind; [apply carries_store|]. intros _.
  destruct (_ =? _); [apply carries_ret|apply IH].
Qed.

Lemma carries_insertion_loop fuel n arr :
  ∀ i, carries tail (insertion_loop key fuel n arr i)
                    (insertion_loop key fuel n arr i).
Proof.
  induction fuel as [|fuel IH]; intros i; [apply carries_fail|].
  cbn [insertion_loop]. destruct (_ <? _); [|apply carries_ret].
  apply carries_bind; [apply carries_load|]. intros value.
  apply carries_bind; [apply carries_shift_loop|]. intros j.
  apply carries_bind; [apply carries_store|]. intros _. apply IH.
Qed.

Lemma carries_insertion_sort n arr :
  carries tail (insertion_sort key n arr) (insertion_sort key n arr).
Proof.
  unfold insertion_sort. destruct (_ <? _); [apply carries_fail|].
  apply carries_insertion_loop.
Qed.

Lemma carries_median3 l ir : carries tail (median3 key l ir) (median3 key l ir).
Proof.
  unfold median3.
  apply carries_bind; [apply carries_SWAP|]. intros _.
  apply carries_bind; [apply carries_SWAP_IF_GREATER|]. intros _.
  apply carries_bind; [apply carries_SWAP_IF_GREATER|]. intros _.
  apply carries_SWAP_IF_GREATER.
Qed.

(** More fuel does not change what a scan returns. *)
Lemma carries_scan_up fuel a :
  ∀ fuel' i, (fuel ≤ fuel')%nat →
    carries tail (scan_up key fuel a i) (scan_up key fuel' a i).
Proof.
  induction fuel as [|fuel IH]; intros fuel' i Hle; [apply carries_fail|].
  destruct fuel' as [|fuel']; [lia|]. cbn [scan_up].
  apply carries_bind; [apply carries_load|]. intros x.
  destruct (_ <? _); [apply IH; lia|apply carries_ret].
Qed.

Lemma carries_scan_down fuel a :
  ∀ fuel' j, (fuel ≤ fuel')%nat →
    carries tail (scan_down key fuel a j) (scan_down key fuel' a j).
Proof.
  induction fuel as [|fuel IH]; intros fuel' j Hle; [apply carries_fail|].
  destruct fuel' as [|fuel']; [lia|]. cbn [scan_down].
  apply carries_bind; [apply carries_load|]. intros x.
  destruct (_ <? _); [apply IH; lia|apply carries_ret].
Qed.

Lemma carries_partition_loop fuel a :
  ∀ fuel' i j, (fuel ≤ fuel')%nat →
    carries tail (partition_loop key fuel a i j)
                 (partition_loop key fuel' a i j).
Proof.
  induction fuel as [|fuel IH]; intros fuel' i j Hle; [apply carries_fail|].
  destruct fuel' as [|fuel']; [lia|]. rewrite !partition_loop_unfold.
  apply carries_size. intros sz sz' Hsz.
  apply carries_bind; [apply carries_scan_up; lia|]. intros i'.
  apply carries_bind; [apply carries_scan_down; lia|]. intros j'.
  destruct (_ <? _); [apply carries_ret|].
  apply carries_bind; [apply carries_SWAP|]. intros _. apply IH. lia.
Qed.

Lemma carries_partition_scan l ir :
  carries tail (partition_scan key l ir) (partition_scan key l ir).
Proof.
  unfold partition_scan, partition_with.
  apply carries_bind; [apply carries_load|]. intros a.
  apply carries_size. intros sz sz' Hsz.
  apply carries_bind; [apply carries_partition_loop; lia|]. intros [i j].
  apply carries_bind; [apply carries_load|]. intros x.
  apply carries_bind; [apply carries_store|]. intros _.
  apply carries_bind; [apply carries_store|]. intros _.
  apply carries_ret.
Qed.

Lemma run_grow {A} (c : M T A) (a : list T) r m' :
  carries tail c c → run c a = Some (r, m') →
  run c (a ++ tail) = Some (r, grow tail m').
Proof. intros Hc H. apply (Hc (Mem a []) r m' H). Qed.

(** An iteration over the longer array does what it does over the array
    itself. *)
Lemma sort_step_grow s o ev :
  sort_step key s = Some (o, ev) →
  sort_step key (grow_state tail s) = Some (grow_outcome tail o, ev).
Proof.
  unfold sort_step. cbn [arr ir l stack stackp grow_state].
  destruct (_ <? _).
  - destruct (run _ (arr s)) as [[u m]|] eqn:E; [|done].
    rewrite (run_grow _ _ _ _ (carries_insertion_sort _ _) E).
    destruct (stackp s =? 0); [by intros [= <- <-]|].
    destruct (stack_rd _ (stackp s)); [|done]. cbn [mbind option_bind].
    destruct (stack_rd _ (stackp s - 1)); [|done]. cbn [mbind option_bind].
    by intros [= <- <-].
  - destruct (run _ (arr s)) as [[[i j] m]|] eqn:E; [|done].
    rewrite (run_grow _ _ _ _
               (carries_bind _ _ _ _ (carries_median3 _ _)
                  (λ _, carries_partition_scan _ _)) E).
    cbn zeta. destruct (_ <=? _).
    + destruct (stack_wr (stack s) _ _) as [st1|]; [|done].
      cbn [mbind option_bind].
      destruct (stack_wr st1 _ _) as [st2|]; [|done]. cbn [mbind option_bind].
      by intros [= <- <-].
    + destruct (stack_wr (stack s) _ _) as [st1|]; [|done].
      cbn [mbind option_bind].
      destruct (stack_wr st1 _ _) as [st2|]; [|done]. cbn [mbind option_bind].
      by intros [= <- <-].
Qed.

Lemma sort_loop_grow fuel :
  ∀ s a' evs,
    sort_loop key fuel s = Some (a', evs) →
    sort_loop key fuel (grow_state tail s) = Some (a' ++ tail, evs).
Proof.
  induction fuel as [|fuel IH]; intros s a' evs H; [done|].
  cbn [sort_loop] in *.
  destruct (sort_step key s) as [[[b|s1] ev]|] eqn:E; [| |done].
  - rewrite (sort_step_grow _ _ _ E). simpl. by injection H as <- <-.
  - rewrite (sort_step_grow _ _ _ E). simpl.
    destruct (sort_loop key fuel s1) as [[a1 evs1]|] eqn:E1; [|done].
    rewrite (IH _ _ _ E1). cbn in *. by injection H as <- <-.
Qed.
End Frame.

(** ** Arrays of equal elements *)

Section EqualElements.
Context {T : Type} (key : T → Z) (x : T) (c0 : list T).
Hypothesis all_equal : ∀ p, 0 ≤ p < Z.of_nat (length c0) → rd c0 p = Some x.
Implicit Types (m : mem T) (s : state T).

Lemma steady_ret {A} (r : A) : steady c0 (mret r : M T A) r.
Proof. intros m Hm. by exists m. Qed.

Lemma steady_bind {A B} (c : M T A) (k : A → M T B) r r' :
  steady c0 c r → steady c0 (k r) r' → steady c0 (c ≫= k) r'.
Proof.
  intros Hc Hk m Hm. destruct (Hc m Hm) as (m1 & E1 & Hm1).
  rewrite (bind_step _ _ _ _ _ E1). by apply Hk.
Qed.

Lemma steady_size : steady c0 (size : M T nat) (length c0).
Proof. intros m Hm. exists m. by rewrite size_step, Hm. Qed.

Lemma steady_load p :
  0 ≤ p < Z.of_nat (length c0) → steady c0 (load p : M T T) x.
Proof.
  intros Hp m Hm. exists (Mem (cells m) (p :: accessed m)). split; [|done].
  apply load_step. rewrite Hm. by apply all_equal.
Qed.

Lemma steady_store p :
  0 ≤ p < Z.of_nat (length c0) → steady c0 (store p x : M T unit) tt.
Proof.
  intros Hp m Hm. exists (Mem c0 (p :: accessed m)). split; [|done].
  apply store_step. rewrite Hm, wr_defined by done. f_equal.
  apply list_insert_id. pose proof (all_equal p Hp) as [_ H]%rd_Some. done.
Qed.

Lemma steady_SWAP p q :
  0 ≤ p < Z.of_nat (length c0) → 0 ≤ q < Z.of_nat (length c0) →
  steady c0 (SWAP p q : M T unit) tt.
Proof.
  intros Hp Hq. unfold SWAP.
  eapply steady_bind; [by apply steady_load|].
  eapply steady_bind; [by apply steady_load|].
  eapply steady_bind; [by apply steady_store|].
  by apply steady_store.
Qed.

Lemma steady_SWAP_IF_GREATER p q :
  0 ≤ p < Z.of_nat (length c0) → 0 ≤ q < Z.of_nat (length c0) →
  steady c0 (SWAP_IF_GREATER key p q) tt.
Proof.
  intros Hp Hq. unfold SWAP_IF_GREATER.
  eapply steady_bind; [by apply steady_load|].
  eapply steady_bind; [by apply steady_load|].
  rewrite Z.ltb_irrefl. apply steady_ret.
Qed.

Lemma steady_median3 l ir :
  1 ≤ l → l < ir → ir ≤ Z.of_nat (length c0) →
  steady c0 (median3 key l ir) tt.
Proof.
  intros Hl Hlir Hir. unfold median3.
  rewrite Z.quot_div_nonneg by lia.
  assert (1 ≤ (l + ir) / 2 ≤ ir) by (Z.div_mod_to_equations; lia).
  eapply steady_bind; [apply steady_SWAP; lia|].
  eapply steady_bind; [apply steady_SWAP_IF_GREATER; lia|].
  eapply steady_bind; [apply steady_SWAP_IF_GREATER; lia|].
  apply steady_SWAP_IF_GREATER; lia.
Qed.

(** Neither scan passes an element equal to the partitioning element. *)
Lemma steady_scan_up fuel i :
  0 ≤ i < Z.of_nat (length c0) → steady c0 (scan_up key (S fuel) x i) (i + 1).
Proof.
  intros Hi. cbn [scan_up].
  eapply steady_bind; [by apply steady_load|].
  rewrite Z.ltb_irrefl. apply steady_ret.
Qed.

Lemma steady_scan_down fuel j :
  0 ≤ j - 2 < Z.of_nat (length c0) →
  steady c0 (scan_down key (S fuel) x j) (j - 1).
Proof.
  intros Hj. cbn [scan_down].
  eapply steady_bind; [by apply steady_load|].
  rewrite Z.ltb_irrefl. apply steady_ret.
Qed.

(** The cursors advance one cell each per round and meet in the middle. *)
Lemma steady_partition_loop fuel :
  ∀ i j,
    2 ≤ i < Z.of_nat (length c0) → i ≤ j ≤ Z.of_nat (length c0) →
    (j - i) / 2 < Z.of_nat fuel →
    steady c0 (partition_loop key fuel x i j)
              (i + (j - i) / 2 + 1, j - (j - i) / 2 - 1).
Proof.
  induction fuel as [|fuel IH]; intros i j Hi Hj Hfuel.
  { assert (0 ≤ (j - i) / 2) by (apply Z.div_pos; lia). lia. }
  rewrite partition_loop_unfold.
  eapply steady_bind; [apply steady_size|].
  eapply steady_bind; [apply steady_scan_up; lia|].
  eapply steady_bind; [apply steady_scan_down; lia|].
  destruct (Z.ltb_spec (j - 1) (i + 1)) as [Hmeet|Hgo].
  - replace ((j - i) / 2) with 0 by (Z.div_mod_to_equations; lia).
    replace (i + 0 + 1) with (i + 1) by lia.
    replace (j - 0 - 1) with (j - 1) by lia. apply steady_ret.
  - eapply steady_bind; [apply steady_SWAP; lia|].
    replace (i + (j - i) / 2 + 1) with (i + 1 + (j - 1 - (i + 1)) / 2 + 1)
      by (Z.div_mod_to_equations; lia).
    replace (j - (j - i) / 2 - 1) with (j - 1 - (j - 1 - (i + 1)) / 2 - 1)
      by (Z.div_mod_to_equations; lia).
    apply IH; [lia|lia|]. Z.div_mod_to_equations. lia.
Qed.

Lemma steady_partition_scan l ir :
  1 ≤ l → l + 2 ≤ ir → ir ≤ Z.of_nat (length c0) →
  steady c0 (partition_scan key l ir)
            (l + (ir - l - 1) / 2 + 2, ir - (ir - l - 1) / 2 - 1).
Proof.
  intros Hl Hlir Hir. unfold partition_scan, partition_with.
  assert (0 ≤ (ir - l - 1) / 2 ≤ ir - l - 1) by (Z.div_mod_to_equations; lia).
  eapply steady_bind; [apply steady_load; lia|].
  eapply steady_bind; [apply steady_size|].
  eapply steady_bind.
  { apply (steady_partition_loop (S (length c0)) (l + 1) ir); [lia|lia|].
    replace (ir - (l + 1)) with (ir - l - 1) by lia. lia. }
  replace (ir - (l + 1)) with (ir - l - 1) by lia.
  replace (l + 1 + (ir - l - 1) / 2 + 1) with (l + (ir - l - 1) / 2 + 2) by lia.
  cbn beta iota.
  eapply steady_bind; [apply steady_load; lia|].
  eapply steady_bind; [apply steady_store; lia|].
  eapply steady_bind; [apply steady_store; lia|].
  apply steady_ret.
Qed.

Lemma stack_wr_room (st : list (option Z)) p v :
  0 ≤ p < Z.of_nat (length st) →
  stack_wr st p v = Some (<[Z.to_nat p := Some v]> st).
Proof.
  intros Hp. unfold stack_wr.
  by rewrite (proj2 (Z.leb_le _ _)), (proj2 (Z.ltb_lt _ _)) by lia.
Qed.

Lemma stack_wr_full (st : list (option Z)) p v :
  Z.of_nat (length st) ≤ p → stack_wr st p v = None.
Proof.
  intros Hp. unfold stack_wr.
  by rewrite (proj2 (Z.ltb_ge _ _)), andb_false_r by lia.
Qed.

(** A partition step on equal elements halves the working subarray: of
    [m] cells it keeps the first [(m - 1) / 2], and pushes as many. *)
Lemma equal_elements_step s :
  arr s = c0 → 1 ≤ l s → INSERTION_THRESHOLD ≤ ir s - l s →
  ir s ≤ Z.of_nat (length c0) → 0 ≤ stackp s →
  (stackp s + 2 < Z.of_nat (length (stack s)) →
   ∃ st,
     sort_step key s =
       Some (Continue {| arr := c0; ir := l s + (ir s - l s) / 2 - 1; l := l s;
                         stack := st; stackp := stackp s + 2 |},
             [Partition; Push]) ∧
     length st = length (stack s)) ∧
  (Z.of_nat (length (stack s)) ≤ stackp s + 2 → sort_step key s = None).
Proof.
  intros Harr Hl Hbig Hir Hsp. unfold INSERTION_THRESHOLD in Hbig.
  destruct (steady_bind (median3 key (l s) (ir s))
              (λ _, partition_scan key (l s) (ir s)) tt _
              (steady_median3 (l s) (ir s) Hl ltac:(lia) Hir)
              (steady_partition_scan (l s) (ir s) Hl ltac:(lia) Hir)
              (Mem (arr s) []) Harr) as (m' & Hrun & Hcells).
  unfold sort_step. rewrite (proj2 (Z.ltb_ge _ _)) by (unfold INSERTION_THRESHOLD; lia).
  unfold run. rewrite Hrun. cbn zeta.
  rewrite (proj2 (Z.leb_le _ _)) by (Z.div_mod_to_equations; lia).
  split.
  - intros Hroom. rewrite stack_wr_room by lia. cbn [mbind option_bind].
    rewrite stack_wr_room by (rewrite length_insert; lia).
    cbn [mbind option_bind]. eexists. split.
    + rewrite Hcells. do 3 f_equal. f_equal. Z.div_mod_to_equations. lia.
    + by rewrite !length_insert.
  - intros Hfull. by rewrite stack_wr_full by lia.
Qed.

(** With [24 - k] pairs on the stack and at least [12 * 2^k - 1] equal
    cells to sort, the loop partitions [k] times in a row: it is left with
    a full stack and a subarray that is to be partitioned once more. *)
Lemma equal_elements_reach (k : nat) :
  ∀ s,
    arr s = c0 → l s = 1 → (k ≤ 24)%nat →
    12 * 2 ^ Z.of_nat k - 1 ≤ ir s → ir s ≤ Z.of_nat (length c0) →
    length (stack s) = NSTACK → stackp s = 2 * (24 - Z.of_nat k) →
    ∃ s',
      sort_reach key k s = Some s' ∧ arr s' = c0 ∧ l s' = 1 ∧
      11 ≤ ir s' ≤ Z.of_nat (length c0) ∧
      length (stack s') = NSTACK ∧ stackp s' = 48.
Proof.
  induction k as [|k IH]; intros s Harr Hl Hk Hsize Hir Hlen Hsp;
    cbn [sort_reach].
  - exists s. change (2 ^ Z.of_nat 0) with 1 in Hsize. repeat split; try done; lia.
  - rewrite Nat2Z.inj_succ, Z.pow_succ_r in Hsize by lia.
    assert (1 ≤ 2 ^ Z.of_nat k) by (pose proof (Z.pow_pos_nonneg 2 (Z.of_nat k)); lia).
    destruct (equal_elements_step s Harr ltac:(lia)) as [Hroom _];
      [unfold INSERTION_THRESHOLD; lia|done|lia|].
    destruct Hroom as (st & -> & Hst); [rewrite Hlen; unfold NSTACK; lia|].
    apply IH; cbn [arr ir l stack stackp]; try done; try lia.
    + rewrite Hl. Z.div_mod_to_equations. lia.
    + rewrite Hl. Z.div_mod_to_equations. lia.
Qed.
End EqualElements.

(** * The specification of [sort] *)

Section SortClaims.
Context {T : Type} (key : T → Z).
Implicit Types (a : list T) (s : state T).

(** The requirement of the source on [NSTACK] ("it must be at least
    2*lg(DATA_SIZE)") keeps the array below [sort_capacity]. *)
Lemma contract_capacity (n : Z) :
  0 ≤ n → 2 * Z.log2_up n ≤ Z.of_nat NSTACK → n < 12 * 2 ^ 24 - 1.
Proof.
  intros Hn Hlog. unfold NSTACK in Hlog.
  assert (E24 : 2 ^ 24 = 16777216) by reflexivity.
  assert (E25 : 2 ^ 25 = 33554432) by reflexivity.
  destruct (decide (n = 0)) as [->|]; [lia|].
  assert (n ≤ 2 ^ 25); [|lia].
  apply Z.log2_up_le_pow2; lia.
Qed.

Lemma sort_total a :
  Z.of_nat (length a) < 12 * 2 ^ 24 - 1 →
  ∀ fuel, (2 * length a + 1 ≤ fuel)%nat →
  ∃ a' evs,
    sort key fuel (Z.of_nat (length a)) a = Some (a', evs) ∧
    a' ≡ₚ a ∧ nondescending key a'.
Proof.
  intros Hn fuel Hfuel. unfold sort.
  apply (sort_loop_spec key a Hn fuel _ [] (sort_init_inv key a)).
  unfold work, weight. simpl. lia.
Qed.

(** C1.  For every array, of whatever length and contents: after
    [sort(n, arr)] returns, the array is in non-descending order
    ([arr[i] <= arr[j]] for all [i < j]) and is a permutation of the input,
    of the same length; and the sort works in place: run on the same [n]
    cells followed by any further cells, it leaves the same result in those
    [n] cells after the same iterations, and the further cells as they
    were.  [sort] does return on every array of fewer than
    [sort_capacity = 12 * 2^24 - 1] elements (every array within the
    [2*lg(n) <= NSTACK] the source requires is one), from [2n+1] iterations
    of fuel on. *)
Theorem sort_sorted_permutation a :
  (∀ fuel a' evs,
     sort key fuel (Z.of_nat (length a)) a = Some (a', evs) →
     nondescending key a' ∧ a' ≡ₚ a ∧ length a' = length a ∧
     ∀ tail,
       sort key fuel (Z.of_nat (length a)) (a ++ tail) = Some (a' ++ tail, evs)) ∧
  (Z.of_nat (length a) < sort_capacity →
   ∀ fuel, (2 * length a + 1 ≤ fuel)%nat →
     is_Some (sort key fuel (Z.of_nat (length a)) a)).
Proof.
  split.
  - intros fuel a' evs Hrun.
    destruct (sort_loop_sound key a fuel _ [] a' evs (sort_init_inv key a) Hrun)
      as (Hp & Hs).
    split; [done|]. split; [done|]. split; [by apply Permutation_length|].
    intros tail. apply (sort_loop_grow key tail fuel _ _ _ Hrun).
  - intros Hcap fuel Hfuel. change sort_capacity with (12 * 2 ^ 24 - 1) in Hcap.
    destruct (sort_total a Hcap fuel Hfuel) as (a' & evs & -> & _). eauto.
Qed.

(** C8.  [sort(n, arr)] terminates on every input array within the
    capacity the source requires of [NSTACK], whatever its contents (runs
    of equal elements included): from some amount of fuel on, the loop
    returns. *)
Theorem sort_terminates a :
  2 * Z.log2_up (Z.of_nat (length a)) ≤ Z.of_nat NSTACK →
  ∃ fuel, ∀ fuel', (fuel ≤ fuel')%nat →
    is_Some (sort key fuel' (Z.of_nat (length a)) a).
Proof.
  intros Hcap. exists (2 * length a + 1)%nat. intros fuel' Hfuel.
  destruct (sort_total a (contract_capacity (Z.of_nat (length a)) ltac:(lia) Hcap) fuel' Hfuel)
    as (a' & evs & -> & _). eauto.
Qed.

(** C9.  For [n = 0] and [n = 1], [sort(n, arr)] returns at its first
    iteration with the array unchanged; the iteration is an insertion
    pass followed by the [break]: nothing is pushed or popped. *)
Theorem sort_short_noop a (fuel : nat) :
  (length a ≤ 1)%nat →
  sort_step key (sort_init (Z.of_nat (length a)) a) = Some (Break a, [Insertion]) ∧
  sort key (S fuel) (Z.of_nat (length a)) a = Some (a, [Insertion]).
Proof.
  intros Hlen. destruct a as [|x [|y a]]; simpl in Hlen; [done|done|lia].
Qed.

Lemma reachable_inv a k s :
  sort_reach key k (sort_init (Z.of_nat (length a)) a) = Some s →
  ∃ pend, sort_inv key a s pend.
Proof. apply sort_reach_inv with (pend := []). apply sort_init_inv. Qed.

(** C3.  In every state an execution of [sort(n, arr)] with [n >= 1]
    reaches, the stack holds an even number [2 * pairs] of pointers with
    [pairs <= ceil(log2(n))], whatever the order of the input. *)
Theorem stack_depth_logarithmic a (k : nat) s :
  (1 ≤ length a)%nat →
  sort_reach key k (sort_init (Z.of_nat (length a)) a) = Some s →
  ∃ pairs : Z,
    stackp s = 2 * pairs ∧
    0 ≤ pairs ≤ Z.log2_up (Z.of_nat (length a)).
Proof.
  intros Hn Hreach. destruct (reachable_inv a k s Hreach) as (pend & Hinv).
  exists (Z.of_nat (length pend)). split; [by destruct Hinv as (_&_&_&_&?&_)|].
  split; [lia|].
  destruct (decide (pend = [])) as [->|Hne]; [apply Z.log2_up_nonneg|].
  pose proof (inv_depth key a s pend Hinv Hne) as Hd.
  unfold INSERTION_THRESHOLD in Hd.
  assert (1 ≤ Z.of_nat (length pend)) by (destruct pend; simpl; [done|lia]).
  etransitivity; [|apply Z.le_log2_log2_up].
  apply Z.log2_le_pow2; [lia|].
  replace (Z.of_nat (length pend)) with (Z.succ (Z.of_nat (length pend) - 1)) by lia.
  rewrite Z.pow_succ_r by lia.
  assert (0 < 2 ^ (Z.of_nat (length pend) - 1)) by (apply Z.pow_pos_nonneg; lia).
  lia.
Qed.

(** C10.  For every input of at most [2^24] elements, in every state the
    execution reaches: the stack array still has its [NSTACK = 50]
    slots, the stack pointer is at most at slot 48, the only slots ever
    written are among [stack[1] .. stack[48]] ([stack[0]] never is), and
    the next iteration is defined, so its stores through the stack
    pointer fall inside the array. *)
Theorem stack_stores_in_bounds a (k : nat) s :
  Z.of_nat (length a) ≤ 2 ^ 24 →
  sort_reach key k (sort_init (Z.of_nat (length a)) a) = Some s →
  length (stack s) = NSTACK ∧
  0 ≤ stackp s ≤ 48 ∧
  (∀ (idx : nat) v, stack s !! idx = Some (Some v) → (1 ≤ idx ≤ 48)%nat) ∧
  is_Some (sort_step key s).
Proof.
  intros Hn Hreach. destruct (reachable_inv a k s Hreach) as (pend & Hinv).
  assert (E24 : 2 ^ 24 = 16777216) by reflexivity.
  pose proof Hinv as (_ & Hslen & Hs0 & Hs49 & Hsp & _).
  split; [done|]. split; [|split].
  - destruct (decide (pend = [])) as [->|Hne]; [simpl in Hsp; lia|].
    pose proof (inv_depth key a s pend Hinv Hne) as Hd.
    unfold INSERTION_THRESHOLD in Hd.
    assert (1 ≤ Z.of_nat (length pend)) by (destruct pend; simpl; [done|lia]).
    assert (Z.of_nat (length pend) - 1 < 24); [|lia].
    apply (pow2_bound 11); lia.
  - intros idx v Hidx. pose proof (lookup_lt_Some _ _ _ Hidx) as Hlt.
    rewrite Hslen in Hlt. unfold NSTACK in Hlt.
    destruct (decide (idx = 0%nat)) as [->|]; [congruence|].
    destruct (decide (idx = 49%nat)) as [->|]; [congruence|]. lia.
  - apply (sort_step_defined key a s pend Hinv). lia.
Qed.
End SortClaims.

(** * The specification of the steps of [sort] *)

Section StepClaims.
Context {T : Type} (key : T → Z).
Implicit Types (a : list T) (s : state T) (m : mem T).

Ltac events :=
  rewrite ?elem_of_cons, ?elem_of_nil; intuition discriminate.

Lemma stack_wr_inv st p v st' :
  stack_wr st p v = Some st' →
  0 ≤ p < Z.of_nat (length st) ∧ st' = <[Z.to_nat p := Some v]> st.
Proof.
  unfold stack_wr.
  destruct (Z.leb_spec 0 p), (Z.ltb_spec p (Z.of_nat (length st)));
    simpl; try discriminate.
  intros [= <-]. split; [lia|done].
Qed.

Lemma stack_rd_after_push st p v1 v2 st1 st2 :
  stack_wr st p v1 = Some st1 → stack_wr st1 (p - 1) v2 = Some st2 →
  stack_rd st2 (p - 1) = Some v2 ∧ stack_rd st2 p = Some v1.
Proof.
  intros [Hp ->]%stack_wr_inv [Hp' ->]%stack_wr_inv.
  rewrite length_insert in Hp'. unfold stack_rd.
  destruct (Z.ltb_spec (p - 1) 0), (Z.ltb_spec p 0); try lia. split.
  - rewrite list_lookup_insert_eq; [done|]. rewrite length_insert. lia.
  - rewrite list_lookup_insert_ne by lia.
    rewrite list_lookup_insert_eq; [done|lia].
Qed.

(** C2 (as the code has it).  An iteration runs the insertion pass on its
    working subarray [l-1 .. ir-1] if and only if the subarray has at most
    [INSERTION_THRESHOLD = 10] cells ([ir - l < INSERTION_THRESHOLD]), and
    partitions it if and only if it has 11 cells or more. *)
Theorem insertion_iff_at_most_threshold s r ev :
  sort_step key s = Some (r, ev) →
  (Insertion ∈ ev ↔ (ir s - 1) - (l s - 1) + 1 ≤ INSERTION_THRESHOLD) ∧
  (Partition ∈ ev ↔ INSERTION_THRESHOLD < (ir s - 1) - (l s - 1) + 1).
Proof.
  intros Hstep. unfold sort_step in Hstep.
  destruct (Z.ltb_spec (ir s - l s) INSERTION_THRESHOLD) as [Hsmall|Hbig].
  - assert (Insertion ∈ ev ∧ (Partition ∉ ev)) as [Hi Hp].
    { destruct (run _ _) as [[u m]|]; [|done].
      destruct (stackp s =? 0).
      - injection Hstep as <- <-. events.
      - destruct (stack_rd _ (stackp s)), (stack_rd _ (stackp s - 1));
          simpl in Hstep; try done.
        injection Hstep as <- <-. events. }
    repeat split; intros; (done || lia).
  - assert ((Insertion ∉ ev) ∧ Partition ∈ ev) as [Hi Hp].
    { destruct (run _ _) as [[[i j] m]|]; [|done]. cbn zeta in Hstep.
      destruct (_ <=? _).
      - destruct (stack_wr _ _ _); simpl in Hstep; [|done].
        destruct (stack_wr _ _ _); simpl in Hstep; [|done].
        injection Hstep as <- <-. events.
      - destruct (stack_wr _ _ _); simpl in Hstep; [|done].
        destruct (stack_wr _ _ _); simpl in Hstep; [|done].
        injection Hstep as <- <-. events. }
    repeat split; intros; (done || lia).
Qed.

(** C4.  An iteration that pushes has partitioned the working subarray
    into the cells [l-1 .. j-2] and [i-1 .. ir-1]; one of the two is
    pushed (one pair, two slots), the other becomes the working subarray,
    and the pushed one is at least as long as the one continued with. *)
Theorem push_larger_continue_smaller s s' ev :
  sort_step key s = Some (Continue s', ev) → Push ∈ ev →
  ∃ i j m pl pr,
    run (median3 key (l s) (ir s);; partition_scan key (l s) (ir s)) (arr s)
      = Some ((i, j), m) ∧
    stackp s' = stackp s + 2 ∧
    stack_rd (stack s') (stackp s' - 1) = Some pl ∧
    stack_rd (stack s') (stackp s') = Some pr ∧
    ((l s', ir s', pl, pr) = (l s, j - 1, i, ir s) ∨
     (l s', ir s', pl, pr) = (i, ir s, l s, j - 1)) ∧
    ir s' - l s' + 1 ≤ pr - pl + 1.
Proof.
  intros Hstep Hpush. unfold sort_step in Hstep.
  destruct (Z.ltb_spec (ir s - l s) INSERTION_THRESHOLD) as [Hsmall|Hbig].
  - exfalso. destruct (run _ _) as [[u m]|]; [|done].
    destruct (stackp s =? 0); [done|].
    destruct (stack_rd _ (stackp s)), (stack_rd _ (stackp s - 1));
      simpl in Hstep; try done.
    injection Hstep as <- <-.
    rewrite !elem_of_cons, elem_of_nil in Hpush. intuition discriminate.
  - destruct (run _ _) as [[[i j] m]|]; [|done]. cbn zeta in Hstep.
    exists i, j, m.
    destruct (Z.leb_spec (j - l s) (ir s - i + 1)) as [Hle|Hgt].
    + destruct (stack_wr (stack s) _ _) as [st1|] eqn:W1; simpl in Hstep; [|done].
      destruct (stack_wr st1 _ _) as [st2|] eqn:W2; simpl in Hstep; [|done].
      injection Hstep as <- <-.
      destruct (stack_rd_after_push _ _ _ _ _ _ W1 W2) as [R1 R2].
      exists i, (ir s). cbn [arr ir l stack stackp].
      split; [done|]. split; [done|]. split; [done|]. split; [done|].
      split; [by left|lia].
    + destruct (stack_wr (stack s) _ _) as [st1|] eqn:W1; simpl in Hstep; [|done].
      destruct (stack_wr st1 _ _) as [st2|] eqn:W2; simpl in Hstep; [|done].
      injection Hstep as <- <-.
      destruct (stack_rd_after_push _ _ _ _ _ _ W1 W2) as [R1 R2].
      exists (l s), (j - 1). cbn [arr ir l stack stackp].
      split; [done|]. split; [done|]. split; [done|]. split; [done|].
      split; [by right|lia].
Qed.

(** C5.  On a subarray long enough to be partitioned, after the median of
    three the cells at [l-1], [l] and [ir-1] hold, in non-descending
    order, the three values that were at [l-1], the midpoint
    [((l-1) + (ir-1)) / 2] and [ir-1]; so the cell at [l] holds their
    median, which is the partitioning element the scan then runs with;
    and no cell other than these four has changed. *)
Theorem median3_selects_pivot l ir m x y z :
  1 ≤ l → INSERTION_THRESHOLD ≤ ir - l → ir ≤ Z.of_nat (length (cells m)) →
  rd (cells m) (l - 1) = Some x →
  rd (cells m) (((l - 1) + (ir - 1)) / 2) = Some y →
  rd (cells m) (ir - 1) = Some z →
  ∃ m' u v w,
    median3 key l ir m = Some (tt, m') ∧
    rd (cells m') (l - 1) = Some u ∧
    rd (cells m') l = Some v ∧
    rd (cells m') (ir - 1) = Some w ∧
    key u ≤ key v ≤ key w ∧
    [u; v; w] ≡ₚ [x; y; z] ∧
    key v = median_key (key x) (key y) (key z) ∧
    partition_scan key l ir m'
      = partition_with key v l ir (Mem (cells m') (l :: accessed m')) ∧
    (∀ k, k ≠ l - 1 → k ≠ l → k ≠ ((l - 1) + (ir - 1)) / 2 → k ≠ ir - 1 →
          rd (cells m') k = rd (cells m) k).
Proof.
  intros Hl Hbig Hir Hx Hy Hz. unfold INSERTION_THRESHOLD in Hbig.
  assert (Hmid : Z.quot (l + ir) 2 - 1 = ((l - 1) + (ir - 1)) / 2).
  { rewrite Z.quot_div_nonneg by lia.
    replace (l + ir) with ((l - 1 + (ir - 1)) + 1 * 2) by lia.
    rewrite Z.div_add by lia. lia. }
  rewrite <- Hmid in *.
  destruct (median3_spec key l ir m x y z)
    as (m' & u & v & w & Hrun & Hu & Hv & Hw & Hord & Hperm & Hmed & Hout & _);
    [lia|lia|done..|].
  exists m', u, v, w. repeat (split; [done|]). split; [|done].
  unfold partition_scan. by erewrite bind_step by (eapply load_step, Hv).
Qed.

(** C6.  On a working subarray [l-1 .. ir-1] that the median of three
    has prepared ([l[-1] <= l[0] <= ir[-1]]), the partition scan is
    defined, and every offset it reads or writes (both cursors, their
    exchanges and the insertion of the partitioning element) lies within
    the subarray; the cursors end with [l < j < i <= ir]. *)
Theorem partition_scan_in_bounds l ir (c : list T) u piv w :
  1 ≤ l → l + 2 ≤ ir → ir ≤ Z.of_nat (length c) →
  rd c (l - 1) = Some u → rd c l = Some piv → rd c (ir - 1) = Some w →
  key u ≤ key piv → key piv ≤ key w →
  ∃ i j m',
    run (partition_scan key l ir) c = Some ((i, j), m') ∧
    l + 1 ≤ j ∧ j < i ∧ i ≤ ir ∧
    Forall (λ k, l - 1 ≤ k ≤ ir - 1) (accessed m').
Proof.
  intros Hl Hlir Hir Hu Hp Hw Hup Hpw.
  destruct (partition_scan_spec key l ir (Mem c []) u piv w)
    as (i & j & m' & Hrun & _ & Hlj & Hji & Hiir & _ & (t & Ht & Hin));
    try done.
  exists i, j, m'. split; [done|]. split; [done|]. split; [done|].
  split; [done|]. simpl in Ht. rewrite Ht, app_nil_r.
  eapply Forall_impl; [exact Hin|]. simpl. intros. lia.
Qed.

(** C7.  [insertion_sort(n, arr)] returns with the [n] cells from [arr]
    on in non-descending order, a permutation of what they held, every
    other cell untouched, and elements that compare equal in the order
    they had on entry. *)
Theorem insertion_sort_stable (pre seg post : list T) :
  ∃ seg' m',
    run (insertion_sort key (Z.of_nat (length seg)) (Z.of_nat (length pre)))
        (pre ++ seg ++ post) = Some (tt, m') ∧
    cells m' = pre ++ seg' ++ post ∧
    nondescending key seg' ∧
    seg' ≡ₚ seg ∧
    equals_keep_order key seg seg'.
Proof.
  destruct (insertion_sort_spec key pre seg post (Mem (pre ++ seg ++ post) []))
    as (seg' & m' & Hrun & Hc & Hs & Hp & Hst); [done|].
  exists seg', m'. split; [done|]. split; [done|].
  split; [by apply strongly_sorted_nondescending|done].
Qed.
End StepClaims.

(** * Instances at [type = int] *)

Lemma sort_sorted_permutation_witness :
  sort int_key 25 12 sample
    = Some ([0; 1; 1; 2; 3; 3; 4; 5; 6; 7; 8; 9],
            [Partition; Push; Insertion; Pop; Insertion]) ∧
  (nondescending int_key [0; 1; 1; 2; 3; 3; 4; 5; 6; 7; 8; 9] ∧
   [0; 1; 1; 2; 3; 3; 4; 5; 6; 7; 8; 9] ≡ₚ sample ∧
   length [0; 1; 1; 2; 3; 3; 4; 5; 6; 7; 8; 9] = length sample ∧
   ∀ tail, sort int_key 25 12 (sample ++ tail)
           = Some ([0; 1; 1; 2; 3; 3; 4; 5; 6; 7; 8; 9] ++ tail,
                   [Partition; Push; Insertion; Pop; Insertion])) ∧
  Z.of_nat (length sample) < sort_capacity ∧
  is_Some (sort int_key 25 12 sample).
Proof.
  assert (H1 : sort int_key 25 12 sample
               = Some ([0; 1; 1; 2; 3; 3; 4; 5; 6; 7; 8; 9],
                       [Partition; Push; Insertion; Pop; Insertion]))
    by (vm_compute; reflexivity).
  assert (H2 : Z.of_nat (length sample) < sort_capacity)
    by (vm_compute; reflexivity).
  assert (H3 : (2 * length sample + 1 ≤ 25)%nat) by (vm_compute; lia).
  split; [exact H1|]. split.
  - exact (proj1 (sort_sorted_permutation int_key sample) 25%nat _ _ H1).
  - split; [exact H2|].
    exact (proj2 (sort_sorted_permutation int_key sample) H2 25%nat H3).
Defined.

Lemma sort_terminates_witness :
  2 * Z.log2_up (Z.of_nat (length sample_equal)) ≤ Z.of_nat NSTACK ∧
  ∃ fuel, ∀ fuel', (fuel ≤ fuel')%nat →
    is_Some (sort int_key fuel' (Z.of_nat (length sample_equal)) sample_equal).
Proof.
  assert (H : 2 * Z.log2_up (Z.of_nat (length sample_equal)) ≤ Z.of_nat NSTACK)
    by (vm_compute; discriminate).
  split; [exact H|exact (sort_terminates int_key sample_equal H)].
Defined.

Lemma sort_short_noop_witness :
  (length [4] ≤ 1)%nat ∧
  sort_step int_key (sort_init (Z.of_nat (length [4])) [4])
    = Some (Break [4], [Insertion]) ∧
  sort int_key 1 (Z.of_nat (length [4])) [4] = Some ([4], [Insertion]).
Proof.
  assert (H : (length [4] ≤ 1)%nat) by (simpl; lia).
  split; [exact H|exact (sort_short_noop int_key [4] 0 H)].
Defined.

Lemma stack_depth_logarithmic_witness :
  (1 ≤ length sample)%nat ∧
  sort_reach int_key 1 (sort_init (Z.of_nat (length sample)) sample)
    = Some sample_pushed ∧
  ∃ pairs : Z,
    stackp sample_pushed = 2 * pairs ∧
    0 ≤ pairs ≤ Z.log2_up (Z.of_nat (length sample)).
Proof.
  assert (H1 : (1 ≤ length sample)%nat) by (simpl; lia).
  assert (H2 : sort_reach int_key 1 (sort_init (Z.of_nat (length sample)) sample)
               = Some sample_pushed) by (vm_compute; reflexivity).
  split; [exact H1|]. split; [exact H2|].
  exact (stack_depth_logarithmic int_key sample 1 sample_pushed H1 H2).
Defined.

Lemma stack_stores_in_bounds_witness :
  Z.of_nat (length sample) ≤ 2 ^ 24 ∧
  sort_reach int_key 1 (sort_init (Z.of_nat (length sample)) sample)
    = Some sample_pushed ∧
  length (stack sample_pushed) = NSTACK ∧
  0 ≤ stackp sample_pushed ≤ 48 ∧
  (∀ (idx : nat) v,
      stack sample_pushed !! idx = Some (Some v) → (1 ≤ idx ≤ 48)%nat) ∧
  is_Some (sort_step int_key sample_pushed).
Proof.
  assert (H1 : Z.of_nat (length sample) ≤ 2 ^ 24) by (vm_compute; discriminate).
  assert (H2 : sort_reach int_key 1 (sort_init (Z.of_nat (length sample)) sample)
               = Some sample_pushed) by (vm_compute; reflexivity).
  split; [exact H1|]. split; [exact H2|].
  exact (stack_stores_in_bounds int_key sample 1 sample_pushed H1 H2).
Defined.

Lemma insertion_iff_at_most_threshold_witness :
  let s := sort_init 2 [2; 1] in
  sort_step int_key s = Some (Break [1; 2], [Insertion]) ∧
  (Insertion ∈ [Insertion] ↔ (ir s - 1) - (l s - 1) + 1 ≤ INSERTION_THRESHOLD) ∧
  (Partition ∈ [Insertion] ↔ INSERTION_THRESHOLD < (ir s - 1) - (l s - 1) + 1).
Proof.
  intros s.
  assert (H : sort_step int_key s = Some (Break [1; 2], [Insertion]))
    by (vm_compute; reflexivity).
  split; [exact H|exact (insertion_iff_at_most_threshold int_key s _ _ H)].
Defined.

(** C2 as the specification words it fails: a working subarray of exactly
    [INSERTION_THRESHOLD = 10] cells gets the insertion pass, although its
    length is not below the threshold. *)
Lemma insertion_pass_at_length_ten :
  let s := sort_init 10 sample_ten in
  sort_step int_key s = Some (Break [0; 1; 2; 3; 4; 5; 6; 7; 8; 9], [Insertion]) ∧
  ¬ (Insertion ∈ [Insertion] ↔ (ir s - 1) - (l s - 1) + 1 < INSERTION_THRESHOLD).
Proof.
  intros s. split; [vm_compute; reflexivity|].
  intros [H _]. specialize (H ltac:(left)). vm_compute in H. discriminate.
Qed.

Lemma push_larger_continue_smaller_witness :
  let s := sort_init 12 sample in
  sort_step int_key s = Some (Continue sample_pushed, [Partition; Push]) ∧
  Push ∈ [Partition; Push] ∧
  ∃ i j m pl pr,
    run (median3 int_key (l s) (ir s);; partition_scan int_key (l s) (ir s)) (arr s)
      = Some ((i, j), m) ∧
    stackp sample_pushed = stackp s + 2 ∧
    stack_rd (stack sample_pushed) (stackp sample_pushed - 1) = Some pl ∧
    stack_rd (stack sample_pushed) (stackp sample_pushed) = Some pr ∧
    ((l sample_pushed, ir sample_pushed, pl, pr) = (l s, j - 1, i, ir s) ∨
     (l sample_pushed, ir sample_pushed, pl, pr) = (i, ir s, l s, j - 1)) ∧
    ir sample_pushed - l sample_pushed + 1 ≤ pr - pl + 1.
Proof.
  intros s.
  assert (H1 : sort_step int_key s = Some (Continue sample_pushed, [Partition; Push]))
    by (vm_compute; reflexivity).
  assert (H2 : Push ∈ [Partition; Push]) by (right; left).
  split; [exact H1|]. split; [exact H2|].
  exact (push_larger_continue_smaller int_key s sample_pushed _ H1 H2).
Defined.

Lemma median3_selects_pivot_witness :
  let m := Mem sample [] in
  1 ≤ 1 ∧ INSERTION_THRESHOLD ≤ 12 - 1 ∧ 12 ≤ Z.of_nat (length (cells m)) ∧
  rd (cells m) (1 - 1) = Some 5 ∧
  rd (cells m) (((1 - 1) + (12 - 1)) / 2) = Some 1 ∧
  rd (cells m) (12 - 1) = Some 0 ∧
  ∃ m' u v w,
    median3 int_key 1 12 m = Some (tt, m') ∧
    rd (cells m') (1 - 1) = Some u ∧
    rd (cells m') 1 = Some v ∧
    rd (cells m') (12 - 1) = Some w ∧
    int_key u ≤ int_key v ≤ int_key w ∧
    [u; v; w] ≡ₚ [5; 1; 0] ∧
    int_key v = median_key (int_key 5) (int_key 1) (int_key 0) ∧
    partition_scan int_key 1 12 m'
      = partition_with int_key v 1 12 (Mem (cells m') (1 :: accessed m')) ∧
    (∀ k, k ≠ 1 - 1 → k ≠ 1 → k ≠ ((1 - 1) + (12 - 1)) / 2 → k ≠ 12 - 1 →
          rd (cells m') k = rd (cells m) k).
Proof.
  intros m.
  assert (H1 : 1 ≤ 1) by lia.
  assert (H2 : INSERTION_THRESHOLD ≤ 12 - 1) by (vm_compute; discriminate).
  assert (H3 : 12 ≤ Z.of_nat (length (cells m))) by (vm_compute; discriminate).
  assert (H4 : rd (cells m) (1 - 1) = Some 5) by reflexivity.
  assert (H5 : rd (cells m) (((1 - 1) + (12 - 1)) / 2) = Some 1) by reflexivity.
  assert (H6 : rd (cells m) (12 - 1) = Some 0) by reflexivity.
  repeat (split; [assumption|]).
  exact (median3_selects_pivot int_key 1 12 m 5 1 0 H1 H2 H3 H4 H5 H6).
Defined.

Lemma partition_scan_in_bounds_witness :
  1 ≤ 1 ∧ 1 + 2 ≤ 12 ∧ 12 ≤ Z.of_nat (length sample_prepared) ∧
  rd sample_prepared (1 - 1) = Some 1 ∧
  rd sample_prepared 1 = Some 5 ∧
  rd sample_prepared (12 - 1) = Some 9 ∧
  int_key 1 ≤ int_key 5 ∧ int_key 5 ≤ int_key 9 ∧
  ∃ i j m',
    run (partition_scan int_key 1 12) sample_prepared = Some ((i, j), m') ∧
    1 + 1 ≤ j ∧ j < i ∧ i ≤ 12 ∧
    Forall (λ k, 1 - 1 ≤ k ≤ 12 - 1) (accessed m').
Proof.
  assert (H1 : 1 ≤ 1) by lia.
  assert (H2 : 1 + 2 ≤ 12) by lia.
  assert (H3 : 12 ≤ Z.of_nat (length sample_prepared)) by (vm_compute; discriminate).
  assert (H4 : rd sample_prepared (1 - 1) = Some 1) by reflexivity.
  assert (H5 : rd sample_prepared 1 = Some 5) by reflexivity.
  assert (H6 : rd sample_prepared (12 - 1) = Some 9) by reflexivity.
  assert (H7 : int_key 1 ≤ int_key 5) by (vm_compute; discriminate).
  assert (H8 : int_key 5 ≤ int_key 9) by (vm_compute; discriminate).
  repeat (split; [assumption|]).
  exact (partition_scan_in_bounds int_key 1 12 sample_prepared 1 5 9
           H1 H2 H3 H4 H5 H6 H7 H8).
Defined.


(** * Further properties of the sorting code *)

Section Exchanges.
Context {T : Type} (key : T → Z).
Implicit Types (c : list T) (p q : Z).

Lemma rd_ext c1 c2 : (∀ k, rd c1 k = rd c2 k) → c1 = c2.
Proof.
  intros H. apply list_eq. intros i. specialize (H (Z.of_nat i)).
  unfold rd in H. destruct (Z.ltb_spec (Z.of_nat i) 0); [lia|].
  by rewrite Nat2Z.id in H.
Qed.

(** X1.  [SWAP] goes through a temporary, so it is safe on aliased
    operands: exchanging a cell with itself leaves the array as it is (the
    partition scan does so when its cursors meet), and exchanging two cells
    twice restores the array. *)
Theorem SWAP_involution c p q x y :
  rd c p = Some x → rd c q = Some y →
  (∃ m1, run (SWAP p p) c = Some (tt, m1) ∧ cells m1 = c) ∧
  (∃ m2, run (SWAP p q;; SWAP p q) c = Some (tt, m2) ∧ cells m2 = c).
Proof.
  intros Hp Hq. split.
  - destruct (SWAP_spec p p (Mem c []) x x Hp Hp) as (c1 & Hrun & Hsw).
    eexists. split; [exact Hrun|]. simpl. apply rd_ext. intros k.
    destruct Hsw as (x1 & y1 & Hx1 & Hy1 & _ & H). rewrite H. simpl in *.
    repeat case_decide; congruence.
  - destruct (SWAP_spec p q (Mem c []) x y Hp Hq) as (c1 & Hrun1 & Hsw1).
    pose proof (swapped_rd_l _ _ _ _ Hsw1) as Hp1.
    pose proof (swapped_rd_r _ _ _ _ Hsw1) as Hq1. simpl in Hp1, Hq1.
    rewrite Hq in Hp1. rewrite Hp in Hq1.
    destruct (SWAP_spec p q (Mem c1 [q; p; q; p]) y x Hp1 Hq1)
      as (c2 & Hrun2 & Hsw2).
    eexists. split.
    + unfold run. erewrite bind_step by exact Hrun1. exact Hrun2.
    + simpl. apply rd_ext. intros k.
      destruct Hsw2 as (x2 & y2 & Hx2 & Hy2 & _ & H2). rewrite H2.
      simpl in *. rewrite Hp1 in Hx2. rewrite Hq1 in Hy2.
      injection Hx2 as <-. injection Hy2 as <-.
      repeat case_decide; subst; try congruence.
      by rewrite (swapped_rd_other _ _ _ _ _ Hsw1).
Qed.
End Exchanges.

Section StableUnique.
Context {T : Type} (key : T → Z).

Lemma nondescending_cons (x : T) (a : list T) :
  nondescending key (x :: a) →
  Forall (key_le key x) a ∧ nondescending key a.
Proof.
  intros H. split.
  - apply Forall_forall. intros y [i Hi]%list_elem_of_lookup_1.
    apply (H 0%nat (S i) x y); [lia|done|done].
  - intros i j u v Hij Hi Hj. apply (H (S i) (S j) u v); [lia|done|done].
Qed.

Lemma nondescending_strongly_sorted (a : list T) :
  nondescending key a → StronglySorted (key_le key) a.
Proof.
  induction a as [|x a IH]; intros H; [constructor|].
  apply nondescending_cons in H as [Hx Ha]. constructor; [by apply IH|done].
Qed.

(** A sorted list is determined by the order in which the elements of each
    key occur in it. *)
Lemma stable_sorted_unique (a b : list T) :
  StronglySorted (key_le key) a → StronglySorted (key_le key) b →
  equals_keep_order key a b → a = b.
Proof.
  intros Ha. revert b. induction Ha as [|x a Ha IH Hx]; intros b Hb Heq.
  - destruct b as [|y b]; [done|].
    specialize (Heq (key y)).
    rewrite filter_cons_True, filter_nil in Heq by done. done.
  - destruct b as [|y b].
    { specialize (Heq (key x)).
      rewrite filter_cons_True, filter_nil in Heq by done. done. }
    apply StronglySorted_cons in Hb as [Hy Hb].
    rewrite Forall_forall in Hx, Hy.
    assert (key x = key y) as Hk.
    { destruct (decide (key x = key y)) as [|Hne]; [done|].
      pose proof (Heq (key y)) as E1.
      rewrite (filter_cons_True _ y), (filter_cons_False _ x) in E1
        by (done || congruence).
      assert (y ∈ a) as Hya.
      { eapply list_elem_of_filter. rewrite <- E1. left. }
      pose proof (Heq (key x)) as E2.
      rewrite (filter_cons_True _ x), (filter_cons_False _ y) in E2
        by (done || congruence).
      assert (x ∈ b) as Hxb.
      { eapply list_elem_of_filter. rewrite E2. left. }
      specialize (Hx _ Hya). specialize (Hy _ Hxb). unfold key_le in *. lia. }
    pose proof (Heq (key x)) as E.
    rewrite !filter_cons_True in E by done. injection E as <- E.
    f_equal. apply IH; [done|]. intros k. specialize (Heq k).
    rewrite !filter_cons in Heq. case_decide; [by injection Heq|done].
Qed.

(** X2.  On cells that are already in non-descending order
    [insertion_sort] changes nothing: the array it returns is the array it
    was given, elements of equal key included. *)
Theorem insertion_sort_sorted_unchanged (pre seg post : list T) :
  nondescending key seg →
  ∃ m',
    run (insertion_sort key (Z.of_nat (length seg)) (Z.of_nat (length pre)))
        (pre ++ seg ++ post) = Some (tt, m') ∧
    cells m' = pre ++ seg ++ post.
Proof.
  intros Hs.
  destruct (insertion_sort_spec key pre seg post (Mem (pre ++ seg ++ post) []))
    as (seg' & m' & Hrun & Hc & Hs' & _ & Hst); [done|].
  exists m'. split; [done|]. rewrite Hc. do 2 f_equal.
  symmetry. apply stable_sorted_unique; [|done|done].
  by apply nondescending_strongly_sorted.
Qed.
End StableUnique.

Section IntSort.
Implicit Types (a b : list Z).

#[local] Instance int_key_le_antisymm : AntiSymm (=) (key_le int_key).
Proof. intros x y. unfold key_le, int_key. lia. Qed.

Lemma int_sorted_unique a b :
  nondescending int_key a → nondescending int_key b → a ≡ₚ b → a = b.
Proof.
  intros Ha Hb Hp.
  apply (StronglySorted_unique (key_le int_key));
    [by apply nondescending_strongly_sorted..|done].
Qed.

(** X3.  At [type = int] the result of [sort] depends only on which
    elements the array holds, not on their order: two arrays that are
    permutations of one another are sorted to the same array. *)
Theorem sort_int_canonical a b :
  a ≡ₚ b → Z.of_nat (length a) < sort_capacity →
  ∃ c ea eb,
    sort int_key (2 * length a + 1) (Z.of_nat (length a)) a = Some (c, ea) ∧
    sort int_key (2 * length b + 1) (Z.of_nat (length b)) b = Some (c, eb).
Proof.
  intros Hp Hcap. change sort_capacity with (12 * 2 ^ 24 - 1) in Hcap.
  pose proof (Permutation_length Hp) as Hlen.
  destruct (sort_total int_key a Hcap (2 * length a + 1) ltac:(lia))
    as (a' & ea & Hra & Hpa & Hsa).
  destruct (sort_total int_key b ltac:(lia) (2 * length b + 1) ltac:(lia))
    as (b' & eb & Hrb & Hpb & Hsb).
  exists a', ea, eb. split; [done|]. rewrite Hrb. do 2 f_equal.
  apply int_sorted_unique; [done|done|]. by rewrite Hpb, Hpa.
Qed.

(** X4.  At [type = int] an array that is already in non-descending order
    is returned unchanged, so sorting a sorted result again changes
    nothing. *)
Theorem sort_int_sorted_unchanged a :
  nondescending int_key a → Z.of_nat (length a) < sort_capacity →
  ∃ evs,
    sort int_key (2 * length a + 1) (Z.of_nat (length a)) a = Some (a, evs).
Proof.
  intros Hs Hcap. change sort_capacity with (12 * 2 ^ 24 - 1) in Hcap.
  destruct (sort_total int_key a Hcap (2 * length a + 1) ltac:(lia))
    as (a' & ea & Hra & Hpa & Hsa).
  exists ea. rewrite Hra. do 2 f_equal. by apply int_sorted_unique.
Qed.
End IntSort.

Section PartitionResult.
Context {T : Type} (key : T → Z).

(** X5.  On a working subarray prepared by the median of three, the
    partition scan returns cursors [i] and [j] such that the cells
    [l-1 .. j-2] have keys not above the pivot's, the cells [j-1 .. i-2]
    keys equal to it and the cells [i-1 .. ir-1] keys not below it; the
    cells [l .. ir-2] were rearranged among themselves and no other cell
    changed. *)
Theorem partition_scan_partitions l ir (c : list T) u piv w :
  1 ≤ l → l + 2 ≤ ir → ir ≤ Z.of_nat (length c) →
  rd c (l - 1) = Some u → rd c l = Some piv → rd c (ir - 1) = Some w →
  key u ≤ key piv → key piv ≤ key w →
  ∃ i j m',
    run (partition_scan key l ir) c = Some ((i, j), m') ∧
    partitioned key piv (l - 1) ir i j (cells m') ∧
    rearranged l (ir - 2) c (cells m').
Proof.
  intros Hl Hlir Hir Hu Hp Hw Hup Hpw.
  destruct (partition_scan_spec key l ir (Mem c []) u piv w)
    as (i & j & m' & Hrun & Hre & _ & _ & _ & Hpart & _); try done.
  exists i, j, m'. done.
Qed.
End PartitionResult.

Section SelectionSort.
Context {T : Type} (key : T → Z).
Implicit Types (c : list T) (m : mem T).

(** A rearranged window, as lists. *)
Lemma rearranged_window (pre seg post c' : list T) :
  rearranged (Z.of_nat (length pre))
             (Z.of_nat (length pre) + Z.of_nat (length seg) - 1)
             (pre ++ seg ++ post) c' →
  ∃ seg', c' = pre ++ seg' ++ post ∧ seg' ≡ₚ seg.
Proof.
  intros (Hlen & Hperm & Hout & _).
  rewrite !length_app in Hlen.
  set (seg' := take (length seg) (drop (length pre) c')).
  assert (Hseg' : length seg' = length seg).
  { unfold seg'. rewrite length_take, length_drop. lia. }
  assert (Hc' : c' = pre ++ seg' ++ post).
  { apply rd_ext. intros k. rewrite !rd_app, Hseg'.
    case_decide as H1.
    - rewrite Hout by lia. rewrite rd_app. by case_decide.
    - case_decide as H2.
      + unfold rd. destruct (Z.ltb_spec k 0), (Z.ltb_spec (k - Z.of_nat (length pre)) 0);
          try lia.
        unfold seg'. rewrite lookup_take_lt, lookup_drop by lia. f_equal. lia.
      + rewrite Hout by lia. rewrite !rd_app.
        case_decide; [lia|]. case_decide; [lia|done]. }
  exists seg'. split; [done|].
  rewrite Hc' in Hperm.
  apply (inj (app pre)) in Hperm. by apply (inj (.++ post)) in Hperm.
Qed.

(** The inner [for]: the cell at [i] ends up with a key that is not above
    the key of any later cell of the subarray. *)
Lemma selection_inner_spec fuel n arr i :
  ∀ j m x,
    0 ≤ i → i < j → j ≤ arr + n → arr + n ≤ Z.of_nat (length (cells m)) →
    (Z.to_nat (arr + n - j) < fuel)%nat →
    rd (cells m) i = Some x →
    all_cells (λ v, key x ≤ key v) (cells m) (i + 1) (j - 1) →
    ∃ m' x',
      selection_inner key fuel n arr i j m = Some (tt, m') ∧
      rearranged i (arr + n - 1) (cells m) (cells m') ∧
      rd (cells m') i = Some x' ∧
      all_cells (λ v, key x' ≤ key v) (cells m') (i + 1) (arr + n - 1).
Proof.
  induction fuel as [|fuel IH]; intros j m x Hi Hij Hj Hlen Hfuel Hx Hmin; [lia|].
  simpl. destruct (Z.ltb_spec j (arr + n)) as [Hlt|Hge].
  - destruct (rd_defined (cells m) j) as [y Hy]; [lia|].
    destruct (SWAP_IF_GREATER_spec key i j m x y i (arr + n - 1))
      as (m1 & x1 & y1 & Hrun1 & Hx1 & Hy1 & Hle & Hcase & Hoth & Hre1);
      [done|done|lia|lia|lia|].
    erewrite bind_step by exact Hrun1.
    pose proof Hre1 as (Hlen1 & _).
    destruct (IH (j + 1) m1 x1) as (m' & x' & Hrun & Hre & Hx' & Hmin');
      [lia|lia|lia|lia|lia|done| |].
    + intros k v Hk Hv. destruct (decide (k = j)) as [->|Hkj].
      * rewrite Hy1 in Hv. by injection Hv as <-.
      * rewrite Hoth in Hv by lia.
        pose proof (Hmin k v ltac:(lia) Hv) as Hkx. simpl in Hkx.
        destruct Hcase as [[-> ->]|[-> ->]]; lia.
    + exists m', x'. split; [done|]. split; [|done].
      eapply rearranged_trans; [exact Hre1|exact Hre].
  - rewrite ret_step. exists m, x. split; [done|].
    split; [apply rearranged_refl|]. split; [done|].
    intros k v Hk Hv. apply (Hmin k v); [lia|done].
Qed.

(** The outer [for]: once it has passed [i], no cell before [i] has a key
    above that of a later cell of the subarray. *)
Lemma selection_outer_spec fuel n arr :
  ∀ i m,
    0 ≤ arr → arr ≤ i → 0 ≤ n → arr + n ≤ Z.of_nat (length (cells m)) →
    (Z.to_nat (arr + n - 1 - i) < fuel)%nat →
    (∀ x y vx vy, arr ≤ x < i → x < y ≤ arr + n - 1 →
                  rd (cells m) x = Some vx → rd (cells m) y = Some vy →
                  key vx ≤ key vy) →
    ∃ m',
      selection_outer key fuel n arr i m = Some (tt, m') ∧
      rearranged arr (arr + n - 1) (cells m) (cells m') ∧
      (∀ x y vx vy, arr ≤ x < y → y ≤ arr + n - 1 →
                    rd (cells m') x = Some vx → rd (cells m') y = Some vy →
                    key vx ≤ key vy).
Proof.
  induction fuel as [|fuel IH]; intros i m Harr Hi Hn Hlen Hfuel Hinv; [lia|].
  cbn [selection_outer]. destruct (Z.ltb_spec i (arr + n - 1)) as [Hlt|Hge].
  - destruct (rd_defined (cells m) i) as [x Hx]; [lia|].
    destruct (selection_inner_spec (S (Z.to_nat n)) n arr i (i + 1) m x)
      as (m1 & x1 & Hrun1 & Hre1 & Hx1 & Hmin); [lia..|done| |].
    { intros k v Hk. lia. }
    erewrite bind_step by exact Hrun1.
    pose proof Hre1 as (Hlen1 & _ & Hout1 & Hwin1).
    destruct (IH (i + 1) m1) as (m' & Hrun & Hre & Hsorted); [lia..| |].
    + intros a b va vb Ha Hb Hva Hvb.
      destruct (decide (a = i)) as [->|Hai].
      * rewrite Hx1 in Hva. injection Hva as <-.
        apply (Hmin b vb); [lia|done].
      * rewrite Hout1 in Hva by lia.
        destruct (decide (b < i)) as [Hbi|Hbi].
        -- rewrite Hout1 in Hvb by lia.
           apply (Hinv a b va vb); [lia|lia|done|done].
        -- destruct (Hwin1 b vb ltac:(lia) Hvb) as (b' & Hb' & Hvb').
           apply (Hinv a b' va vb); [lia|lia|done|done].
    + exists m'. split; [done|]. split; [|done].
      eapply rearranged_trans; [|exact Hre].
      eapply rearranged_mono; [exact Hre1|lia|lia].
  - rewrite ret_step. exists m. split; [done|].
    split; [apply rearranged_refl|].
    intros x y vx vy Hx Hy. apply Hinv; lia.
Qed.

(** X6.  [selection_sort(n, arr)], called on at least one cell or away
    from the start of the array, returns with the [n] cells from [arr] on
    in non-descending order, a permutation of what they held, and every
    other cell untouched. *)
Theorem selection_sort_sorts (pre seg post : list T) :
  (0 < length pre + length seg)%nat →
  ∃ seg' m',
    run (selection_sort key (Z.of_nat (length seg)) (Z.of_nat (length pre)))
        (pre ++ seg ++ post) = Some (tt, m') ∧
    cells m' = pre ++ seg' ++ post ∧
    nondescending key seg' ∧
    seg' ≡ₚ seg.
Proof.
  intros Hne. unfold run, selection_sort.
  rewrite (proj2 (Z.ltb_ge (Z.of_nat (length seg)) 0)) by lia.
  rewrite (proj2 (Z.ltb_ge _ 0)) by lia. cbn [orb].
  destruct (selection_outer_spec (S (Z.to_nat (Z.of_nat (length seg))))
              (Z.of_nat (length seg)) (Z.of_nat (length pre))
              (Z.of_nat (length pre)) (Mem (pre ++ seg ++ post) []))
    as (m' & Hrun & Hre & Hsorted); [lia|lia|lia| |lia| |].
  { simpl. rewrite !length_app. lia. }
  { intros x y vx vy Hx. lia. }
  simpl in Hre. destruct (rearranged_window pre seg post _ Hre) as (seg' & Hc & Hp).
  exists seg', m'. split; [done|]. split; [done|]. split; [|done].
  intros i j x y Hij Hi Hj.
  pose proof (lookup_lt_Some _ _ _ Hj) as Hlt.
  rewrite (Permutation_length Hp) in Hlt.
  apply (Hsorted (Z.of_nat (length pre) + Z.of_nat i)
                 (Z.of_nat (length pre) + Z.of_nat j) x y); [lia|lia| |].
  - rewrite Hc, rd_app. case_decide; [lia|]. rewrite rd_app.
    rewrite (Permutation_length Hp). case_decide; [|lia].
    apply rd_Some. split; [lia|]. by replace (Z.to_nat _) with i by lia.
  - rewrite Hc, rd_app. case_decide; [lia|]. rewrite rd_app.
    rewrite (Permutation_length Hp). case_decide; [|lia].
    apply rd_Some. split; [lia|]. by replace (Z.to_nat _) with j by lia.
Qed.
End SelectionSort.

(** ** Which cells the steps access *)

Section Touches.
Context {T : Type} (key : T → Z).
Implicit Types (P : Z → Prop) (m : mem T).

Lemma touches_ret {A} P (Q : A → Prop) (x : A) :
  Q x → touches P Q (mret x : M T A).
Proof.
  intros HQ m r m' [= <- <-]. split; [|done]. exists []. split; [done|constructor].
Qed.

Lemma touches_fail {A} P (Q : A → Prop) : touches P Q (fail : M T A).
Proof. intros m r m' H. discriminate. Qed.

Lemma touches_bind {A B} P (Q1 : A → Prop) (Q : B → Prop)
    (c : M T A) (k : A → M T B) :
  touches P Q1 c → (∀ x, Q1 x → touches P Q (k x)) → touches P Q (c ≫= k).
Proof.
  intros Hc Hk m r m' H. unfold mbind, M_bind in H.
  destruct (c m) as [[x m1]|] eqn:E; [|done].
  destruct (Hc _ _ _ E) as ((t1 & E1 & F1) & HQ1).
  destruct (Hk x HQ1 _ _ _ H) as ((t2 & E2 & F2) & HQ).
  split; [|done]. exists (t2 ++ t1). split.
  - by rewrite E2, E1, app_assoc.
  - by apply Forall_app.
Qed.

Lemma touches_mono {A} P P' (Q Q' : A → Prop) (c : M T A) :
  touches P Q c → (∀ k, P k → P' k) → (∀ r, Q r → Q' r) → touches P' Q' c.
Proof.
  intros Hc HP HQ m r m' H. destruct (Hc _ _ _ H) as ((t & E & F) & Hr).
  split; [|by apply HQ]. exists t. split; [done|].
  eapply Forall_impl; [exact F|done].
Qed.

Lemma touches_load P p : P p → touches P (λ _, True) (load p : M T T).
Proof.
  intros HP m r m' H. unfold load in H.
  destruct (rd (cells m) p); [|done]. injection H as <- <-.
  split; [|done]. exists [p]. split; [done|]. constructor; [done|constructor].
Qed.

Lemma touches_store P p v : P p → touches P (λ _, True) (store p v : M T unit).
Proof.
  intros HP m r m' H. unfold store in H.
  destruct (wr (cells m) p v); [|done]. injection H as <- <-.
  split; [|done]. exists [p]. split; [done|]. constructor; [done|constructor].
Qed.

Lemma touches_SWAP P p q : P p → P q → touches P (λ _, True) (SWAP p q : M T unit).
Proof.
  intros Hp Hq. unfold SWAP.
  eapply touches_bind; [by apply touches_load|]. intros x _.
  eapply touches_bind; [by apply touches_load|]. intros y _.
  eapply touches_bind; [by apply touches_store|]. intros _ _.
  by apply touches_store.
Qed.

Lemma touches_SWAP_IF_GREATER P p q :
  P p → P q → touches P (λ _, True) (SWAP_IF_GREATER key p q).
Proof.
  intros Hp Hq. unfold SWAP_IF_GREATER.
  eapply touches_bind; [by apply touches_load|]. intros x _.
  eapply touches_bind; [by apply touches_load|]. intros y _.
  destruct (_ <? _); [by apply touches_SWAP|by apply touches_ret].
Qed.

Lemma touches_shift_loop fuel arr value :
  ∀ j, arr < j →
    touches (λ k, arr ≤ k ≤ j) (λ j', arr ≤ j' ≤ j)
            (shift_loop key fuel arr value j).
Proof.
  induction fuel as [|fuel IH]; intros j Hj; [apply touches_fail|].
  cbn [shift_loop].
  eapply touches_bind; [apply touches_load; lia|]. intros x _.
  destruct (_ <? _); [|apply touches_ret; lia].
  eapply touches_bind; [apply touches_load; lia|]. intros y _.
  eapply touches_bind; [apply touches_store; lia|]. intros _ _.
  destruct (Z.eqb_spec (j - 1) arr); [apply touches_ret; lia|].
  eapply touches_mono; [apply (IH (j - 1)); lia| |]; simpl; intros; lia.
Qed.

Lemma touches_insertion_loop fuel n arr :
  ∀ i, arr < i →
    touches (λ k, arr ≤ k < arr + n) (λ _, True)
            (insertion_loop key fuel n arr i).
Proof.
  induction fuel as [|fuel IH]; intros i Hi; [apply touches_fail|].
  cbn [insertion_loop].
  destruct (Z.ltb_spec i (arr + n)); [|by apply touches_ret].
  eapply touches_bind; [apply touches_load; lia|]. intros value _.
  apply (touches_bind _ (λ j, arr ≤ j ≤ i)).
  { eapply touches_mono; [apply touches_shift_loop; lia| |];
      simpl; intros; lia. }
  intros j Hj. simpl in Hj.
  eapply touches_bind; [apply touches_store; lia|]. intros _ _.
  apply IH. lia.
Qed.

(** X7.  [insertion_sort(n, arr)] reads and writes only the [n] cells it
    is given: every offset it accesses lies in [arr .. arr+n-1]. *)
Theorem insertion_sort_in_bounds (pre seg post : list T) :
  ∃ m',
    run (insertion_sort key (Z.of_nat (length seg)) (Z.of_nat (length pre)))
        (pre ++ seg ++ post) = Some (tt, m') ∧
    Forall (λ k, Z.of_nat (length pre) ≤ k
                 < Z.of_nat (length pre) + Z.of_nat (length seg))
           (accessed m').
Proof.
  destruct (insertion_sort_spec key pre seg post (Mem (pre ++ seg ++ post) []))
    as (seg' & m' & Hrun & _); [done|].
  exists m'. split; [done|].
  assert (Ht : touches (λ k, Z.of_nat (length pre) ≤ k
                             < Z.of_nat (length pre) + Z.of_nat (length seg))
                       (λ _, True)
                       (insertion_sort key (Z.of_nat (length seg))
                                       (Z.of_nat (length pre)))).
  { unfold insertion_sort. destruct (_ <? _); [apply touches_fail|].
    apply touches_insertion_loop. lia. }
  destruct (Ht _ _ _ Hrun) as ((t & Et & Ft) & _).
  simpl in Et. by rewrite Et, app_nil_r.
Qed.

(** X8.  On a subarray of at least three cells the median of three is
    defined and accesses no cell other than the first, the second, the
    middle and the last cell of the subarray. *)
Theorem median3_touches_four l ir (c : list T) :
  1 ≤ l → 2 ≤ ir - l → ir ≤ Z.of_nat (length c) →
  ∃ m',
    run (median3 key l ir) c = Some (tt, m') ∧
    Forall (λ k, k = l - 1 ∨ k = l ∨ k = ((l - 1) + (ir - 1)) / 2 ∨ k = ir - 1)
           (accessed m').
Proof.
  intros Hl Hlen Hir.
  pose proof (midpoint_range l ir Hl Hlen) as Hmid.
  assert (Hm : Z.quot (l + ir) 2 - 1 = ((l - 1) + (ir - 1)) / 2).
  { rewrite Z.quot_div_nonneg by lia.
    replace (l + ir) with ((l - 1 + (ir - 1)) + 1 * 2) by lia.
    rewrite Z.div_add by lia. lia. }
  destruct (rd_defined c (l - 1)) as [x Hx]; [lia|].
  destruct (rd_defined c (Z.quot (l + ir) 2 - 1)) as [y Hy]; [lia|].
  destruct (rd_defined c (ir - 1)) as [z Hz]; [lia|].
  destruct (median3_spec key l ir (Mem c []) x y z)
    as (m' & u & v & w & Hrun & _); [lia|lia|done..|].
  exists m'. split; [done|].
  assert (Ht : touches (λ k, k = l - 1 ∨ k = l
                             ∨ k = ((l - 1) + (ir - 1)) / 2 ∨ k = ir - 1)
                       (λ _, True) (median3 key l ir)).
  { unfold median3. rewrite Hm.
    eapply touches_bind; [apply touches_SWAP; auto|]. intros _ _.
    eapply touches_bind; [apply touches_SWAP_IF_GREATER; auto|]. intros _ _.
    eapply touches_bind; [apply touches_SWAP_IF_GREATER; auto|]. intros _ _.
    apply touches_SWAP_IF_GREATER; auto. }
  destruct (Ht _ _ _ Hrun) as ((t & Et & Ft) & _).
  simpl in Et. by rewrite Et, app_nil_r.
Qed.
End Touches.


(** ** The life of the stack *)

Section StackLife.
Context {T : Type} (key : T → Z).
Implicit Types (a : list T) (s : state T) (pend : list (Z * Z)).

Lemma occurrences_cons e x evs :
  occurrences e (x :: evs)
  = ((if decide (x = e) then 1 else 0) + occurrences e evs)%nat.
Proof. unfold occurrences. rewrite filter_cons. by case_decide. Qed.

(** From a state with [k] pairs on the stack the loop pops [k] pairs more
    than it pushes, and finishes [k + 1] subarrays more than it splits. *)
Lemma sort_loop_balance a0 fuel :
  ∀ s pend a' evs,
    sort_inv key a0 s pend →
    sort_loop key fuel s = Some (a', evs) →
    occurrences Pop evs = (occurrences Push evs + length pend)%nat ∧
    occurrences Push evs = occurrences Partition evs ∧
    occurrences Insertion evs
    = (occurrences Partition evs + length pend + 1)%nat.
Proof.
  induction fuel as [|fuel IH]; intros s pend a' evs Hinv Hrun; [done|].
  cbn [sort_loop] in Hrun.
  destruct (decide (ir s - l s < INSERTION_THRESHOLD)) as [Hsmall|Hbig].
  - pose proof (step_insertion key a0 s pend Hinv Hsmall) as Hs.
    destruct pend as [|top rest].
    + destruct Hs as (a1 & Hs & _). rewrite Hs in Hrun.
      injection Hrun as <- <-. done.
    + destruct Hs as (s2 & Hs & Hinv2 & _). rewrite Hs in Hrun.
      destruct (sort_loop key fuel s2) as [[a2 evs2]|] eqn:E; [|done].
      cbn in Hrun. injection Hrun as <- <-.
      destruct (IH s2 rest a2 evs2 Hinv2 E) as (H1 & H2 & H3).
      rewrite !occurrences_cons. simpl. rewrite H1, H2, H3.
      repeat case_decide; try done; lia.
  - destruct (step_partition key a0 s pend Hinv ltac:(lia))
      as (s2 & pushed & _ & Hcap & Hover).
    destruct (decide (2 * length pend + 2 < NSTACK)%nat) as [Hc|Hc].
    + destruct (Hcap Hc) as (Hs & Hinv2). rewrite Hs in Hrun.
      destruct (sort_loop key fuel s2) as [[a2 evs2]|] eqn:E; [|done].
      cbn in Hrun. injection Hrun as <- <-.
      destruct (IH s2 (pushed :: pend) a2 evs2 Hinv2 E) as (H1 & H2 & H3).
      rewrite !occurrences_cons. simpl in *. rewrite H1, H2, H3.
      repeat case_decide; try done; lia.
    + rewrite Hover in Hrun by lia. done.
Qed.

(** X9.  Over a whole run of [sort] every partition pushes exactly one
    pair, every pushed pair is popped again before the loop is left (the
    stack is empty on return), and the insertion pass runs once more than
    the partition does. *)
Theorem sort_stack_drained a :
  Z.of_nat (length a) < sort_capacity →
  ∃ a' evs,
    sort key (2 * length a + 1) (Z.of_nat (length a)) a = Some (a', evs) ∧
    occurrences Pop evs = occurrences Push evs ∧
    occurrences Push evs = occurrences Partition evs ∧
    occurrences Insertion evs = S (occurrences Partition evs).
Proof.
  intros Hcap. change sort_capacity with (12 * 2 ^ 24 - 1) in Hcap.
  destruct (sort_total key a Hcap (2 * length a + 1) ltac:(lia))
    as (a' & evs & Hrun & _).
  exists a', evs. split; [done|].
  destruct (sort_loop_balance a _ _ [] a' evs (sort_init_inv key a) Hrun)
    as (H1 & H2 & H3).
  simpl in *. lia.
Qed.

(** X10.  In every state the loop reaches, the array is a permutation of
    the input, the working subarray lies within it, and its two ends are
    cuts: no cell before the working subarray has a key above that of a
    cell from its start on, and no cell up to its end has a key above that
    of a later cell. *)
Theorem sort_keeps_subarray_bounded a (k : nat) s :
  sort_reach key k (sort_init (Z.of_nat (length a)) a) = Some s →
  arr s ≡ₚ a ∧
  1 ≤ l s ∧ l s ≤ ir s + 1 ∧ ir s ≤ Z.of_nat (length a) ∧
  cut key (arr s) (l s - 1) ∧ cut key (arr s) (ir s).
Proof.
  intros Hreach. destruct (reachable_inv key a k s Hreach) as (pend & Hinv).
  pose proof (inv_bounds key a s pend Hinv) as (H1 & H2 & H3).
  pose proof (inv_boundary_cuts key a s pend Hinv) as (H4 & H5).
  rewrite (inv_length key a s pend Hinv) in H3.
  by destruct Hinv as (Hp & _).
Qed.
End StackLife.

(** ** What lies behind the array *)

Section Beyond.
Context {T : Type} (key : T → Z) (tail : list T).

(** X11.  [sort(n, arr)] with [n < sort_capacity], on an array that goes
    on beyond its first [n] cells, sorts these [n] cells and leaves every
    cell from offset [n] on as it was. *)
Theorem sort_leaves_rest a :
  Z.of_nat (length a) < sort_capacity →
  ∃ a' evs,
    sort key (2 * length a + 1) (Z.of_nat (length a)) (a ++ tail)
      = Some (a' ++ tail, evs) ∧
    nondescending key a' ∧ a' ≡ₚ a.
Proof.
  intros Hcap. change sort_capacity with (12 * 2 ^ 24 - 1) in Hcap.
  destruct (sort_total key a Hcap (2 * length a + 1) ltac:(lia))
    as (a' & evs & Hrun & Hp & Hs).
  exists a', evs. split; [|done].
  apply (sort_loop_grow key tail _ _ _ _ Hrun).
Qed.
End Beyond.

(** ** Short arrays *)

Section ShortArrays.
Context {T : Type} (key : T → Z).

(** X14.  On an array of at most [INSERTION_THRESHOLD] elements [sort] is
    one insertion pass and nothing else, so on such arrays it is stable:
    elements of equal key keep their order. *)
Theorem sort_short_is_stable (a : list T) (fuel : nat) :
  Z.of_nat (length a) ≤ INSERTION_THRESHOLD →
  ∃ a',
    sort key (S fuel) (Z.of_nat (length a)) a = Some (a', [Insertion]) ∧
    nondescending key a' ∧ a' ≡ₚ a ∧ equals_keep_order key a a'.
Proof.
  intros Hshort. unfold sort. cbn [sort_loop]. unfold sort_step.
  cbn [sort_init arr ir l stack stackp].
  rewrite (proj2 (Z.ltb_lt _ _)) by lia.
  destruct (insertion_sort_spec key [] a [] (Mem a []))
    as (a' & m' & Hrun & Hc & Hs & Hp & Hst); [by rewrite app_nil_r|].
  replace (Z.of_nat (length a) - 1 + 1) with (Z.of_nat (length a)) by lia.
  change (1 - 1) with (Z.of_nat (length (@nil T))).
  unfold run. rewrite Hrun. cbn [Z.eqb].
  exists a'. simpl in Hc. rewrite app_nil_r in Hc. rewrite Hc.
  split; [done|]. split; [|done]. by apply strongly_sorted_nondescending.
Qed.
End ShortArrays.

(** ** Beyond the capacity *)

Section Overflow.
Context {T : Type} (key : T → Z).

(** X15.  The capacity is exact.  On an array of [sort_capacity =
    12 * 2^24 - 1] or more equal elements [sort] partitions 24 times in a
    row, halving the working subarray and pushing a pair each time; the
    stack then holds 24 pairs, the working subarray still has more than
    [INSERTION_THRESHOLD] cells, and the push of the next partition stores
    at [stack[50]], past the end of [stack]: the run is undefined, and no
    amount of fuel gives a result. *)
Theorem equal_elements_overflow (x : T) (n : Z) :
  sort_capacity ≤ n →
  (∃ s,
     sort_reach key 24 (sort_init n (replicate (Z.to_nat n) x)) = Some s ∧
     stackp s = 48 ∧ INSERTION_THRESHOLD ≤ ir s - l s ∧
     stack_wr (stack s) (stackp s + 2) (ir s) = None ∧
     sort_step key s = None) ∧
  ∀ fuel, sort key fuel n (replicate (Z.to_nat n) x) = None.
Proof.
  intros Hn. change sort_capacity with (12 * 2 ^ 24 - 1) in Hn.
  assert (Hall : ∀ p, 0 ≤ p < Z.of_nat (length (replicate (Z.to_nat n) x)) →
                      rd (replicate (Z.to_nat n) x) p = Some x).
  { intros p Hp. rewrite length_replicate in Hp. apply rd_Some. split; [lia|].
    apply lookup_replicate_2. lia. }
  destruct (equal_elements_reach key x _ Hall 24
              (sort_init n (replicate (Z.to_nat n) x)))
    as (s & Hreach & Harr & Hl & Hir & Hlen & Hsp).
  { reflexivity. }
  { reflexivity. }
  { lia. }
  { cbn [sort_init ir]. change (Z.of_nat 24) with 24. lia. }
  { cbn [sort_init ir]. rewrite length_replicate. lia. }
  { apply length_replicate. }
  { reflexivity. }
  assert (Hstep : sort_step key s = None).
  { apply (equal_elements_step key x _ Hall s Harr); unfold INSERTION_THRESHOLD;
      rewrite ?Hlen; unfold NSTACK; lia. }
  split.
  - exists s. split; [done|]. split; [done|].
    split; [unfold INSERTION_THRESHOLD; lia|]. split; [|done].
    apply stack_wr_full. rewrite Hlen. unfold NSTACK. lia.
  - intros fuel. apply (sort_reach_undefined key 24 _ s Hreach Hstep).
Qed.
End Overflow.

(** * Cycle statistics *)

Section CycleStatistics.

(** Both branches of the source compute the difference of the two counter
    readings modulo [2^32]. *)
Lemma elapsed_wraps (start_cycles end_cycles : Z) :
  0 ≤ start_cycles < 2 ^ 32 → 0 ≤ end_cycles < 2 ^ 32 →
  (if start_cycles <=? end_cycles then wrap32 (end_cycles - start_cycles)
   else wrap32 (wrap32 (wrap32 (4294967295 - start_cycles) + 1) + end_cycles))
  = wrap32 (end_cycles - start_cycles).
Proof.
  intros Hs He. assert (E : 2 ^ 32 = 4294967296) by reflexivity.
  destruct (Z.leb_spec start_cycles end_cycles) as [Hle|Hgt]; [done|].
  unfold wrap32. rewrite E in *.
  rewrite (Z.mod_small (4294967295 - start_cycles)) by lia.
  rewrite (Z.mod_small (4294967295 - start_cycles + 1)) by lia.
  rewrite (Z.mod_small (4294967295 - start_cycles + 1 + end_cycles)) by lia.
  replace (end_cycles - start_cycles)
    with (4294967295 - start_cycles + 1 + end_cycles + (-1) * 4294967296) by lia.
  rewrite Z.mod_add by lia. rewrite Z.mod_small; lia.
Qed.

Lemma elapsed_exact (c d : Z) :
  0 ≤ d < 2 ^ 32 → wrap32 (wrap32 (c + d) - wrap32 c) = d.
Proof.
  intros Hd. unfold wrap32.
  rewrite <- Zminus_mod. replace (c + d - c) with d by lia.
  apply Z.mod_small. lia.
Qed.

Lemma wrap32_range x : 0 ≤ wrap32 x < 2 ^ 32.
Proof. unfold wrap32. apply Z.mod_pos_bound. reflexivity. Qed.

(** X12.  [setStats] of the memcpy benchmark measures exactly: when the
    counter stood at [c] at [setStats(1)] and [d < 2^32] cycles later
    [setStats(0)] is called, the count it prints is [d], and the time is
    [d / CLOCK_SPEED_MHZ], also when the 32-bit counter has wrapped around
    in between; the recorded start is kept. *)
Theorem memcpy_setStats_measures (CLOCK_SPEED_MHZ enable c d start0 : Z) :
  0 < CLOCK_SPEED_MHZ → enable ≠ 0 → 0 ≤ d < 2 ^ 32 →
  MemcpyStats.setStats CLOCK_SPEED_MHZ enable (wrap32 c) start0
    = Some (wrap32 c, [UartInit; Started]) ∧
  MemcpyStats.setStats CLOCK_SPEED_MHZ 0 (wrap32 (c + d)) (wrap32 c)
    = Some (wrap32 c,
            [Finished; CyclesElapsed d; TimeElapsed (d / CLOCK_SPEED_MHZ)]).
Proof.
  intros Hmhz Hen Hd. unfold MemcpyStats.setStats.
  rewrite (proj2 (Z.eqb_neq enable 0) Hen).
  rewrite (proj2 (Z.eqb_neq CLOCK_SPEED_MHZ 0)) by lia.
  split; [done|]. cbn [Z.eqb]. cbv zeta.
  rewrite (elapsed_wraps _ _ (wrap32_range c) (wrap32_range (c + d))).
  by rewrite (elapsed_exact c d Hd).
Qed.

(** X13.  [setStats] of the Dhrystone benchmark: [setStats(1)] records the
    counter in [start_cycles] and touches no other global; [setStats(0)],
    [d < 2^32] cycles later, leaves [d] in [elapsed_cycles] and the
    reading in [end_cycles], also when the counter has wrapped around. *)
Theorem dhrystone_setStats_measures (enable c d : Z)
    (g : DhrystoneStats.globals) :
  enable ≠ 0 → 0 ≤ d < 2 ^ 32 →
  let g1 := (DhrystoneStats.setStats enable (wrap32 c) g).1 in
  let g2 := (DhrystoneStats.setStats 0 (wrap32 (c + d)) g1).1 in
  DhrystoneStats.start_cycles g1 = wrap32 c ∧
  DhrystoneStats.elapsed_cycles g1 = DhrystoneStats.elapsed_cycles g ∧
  DhrystoneStats.end_cycles g1 = DhrystoneStats.end_cycles g ∧
  DhrystoneStats.start_cycles g2 = wrap32 c ∧
  DhrystoneStats.elapsed_cycles g2 = d ∧
  DhrystoneStats.end_cycles g2 = wrap32 (c + d).
Proof.
  intros Hen Hd. unfold DhrystoneStats.setStats.
  rewrite (proj2 (Z.eqb_neq enable 0) Hen). cbn.
  repeat (split; [done|]). split; [|done].
  rewrite (elapsed_wraps _ _ (wrap32_range c) (wrap32_range (c + d))).
  apply (elapsed_exact c d Hd).
Qed.
End CycleStatistics.


(** * Further instances at [type = int] *)

Lemma SWAP_involution_witness :
  rd sample 2 = Some 3 ∧ rd sample 6 = Some 9 ∧
  (∃ m1, run (SWAP 2 2) sample = Some (tt, m1) ∧ cells m1 = sample) ∧
  (∃ m2, run (SWAP 2 6;; SWAP 2 6) sample = Some (tt, m2) ∧ cells m2 = sample).
Proof.
  assert (H1 : rd sample 2 = Some 3) by reflexivity.
  assert (H2 : rd sample 6 = Some 9) by reflexivity.
  split; [exact H1|]. split; [exact H2|].
  exact (SWAP_involution sample 2 6 3 9 H1 H2).
Defined.

Lemma insertion_sort_sorted_unchanged_witness :
  nondescending int_key [1; 2; 2; 3] ∧
  ∃ m',
    run (insertion_sort int_key (Z.of_nat (length [1; 2; 2; 3]))
                        (Z.of_nat (length [9])))
        ([9] ++ [1; 2; 2; 3] ++ [0]) = Some (tt, m') ∧
    cells m' = [9] ++ [1; 2; 2; 3] ++ [0].
Proof.
  assert (H : nondescending int_key [1; 2; 2; 3]).
  { apply strongly_sorted_nondescending.
    repeat constructor; unfold key_le, int_key; lia. }
  split; [exact H|].
  exact (insertion_sort_sorted_unchanged int_key [9] [1; 2; 2; 3] [0] H).
Defined.

Lemma sort_int_canonical_witness :
  [2; 1; 3] ≡ₚ [1; 2; 3] ∧
  Z.of_nat (length [2; 1; 3]) < sort_capacity ∧
  ∃ c ea eb,
    sort int_key (2 * length [2; 1; 3] + 1) (Z.of_nat (length [2; 1; 3])) [2; 1; 3]
      = Some (c, ea) ∧
    sort int_key (2 * length [1; 2; 3] + 1) (Z.of_nat (length [1; 2; 3])) [1; 2; 3]
      = Some (c, eb).
Proof.
  assert (H1 : [2; 1; 3] ≡ₚ [1; 2; 3]) by apply perm_swap.
  assert (H2 : Z.of_nat (length [2; 1; 3]) < sort_capacity)
    by (vm_compute; reflexivity).
  split; [exact H1|]. split; [exact H2|].
  exact (sort_int_canonical [2; 1; 3] [1; 2; 3] H1 H2).
Defined.

Lemma sort_int_sorted_unchanged_witness :
  nondescending int_key [1; 2; 2; 3] ∧
  Z.of_nat (length [1; 2; 2; 3]) < sort_capacity ∧
  ∃ evs,
    sort int_key (2 * length [1; 2; 2; 3] + 1) (Z.of_nat (length [1; 2; 2; 3]))
         [1; 2; 2; 3] = Some ([1; 2; 2; 3], evs).
Proof.
  assert (H1 : nondescending int_key [1; 2; 2; 3]).
  { apply strongly_sorted_nondescending.
    repeat constructor; unfold key_le, int_key; lia. }
  assert (H2 : Z.of_nat (length [1; 2; 2; 3]) < sort_capacity)
    by (vm_compute; reflexivity).
  split; [exact H1|]. split; [exact H2|].
  exact (sort_int_sorted_unchanged [1; 2; 2; 3] H1 H2).
Defined.

Lemma partition_scan_partitions_witness :
  1 ≤ 1 ∧ 1 + 2 ≤ 12 ∧ 12 ≤ Z.of_nat (length sample_prepared) ∧
  rd sample_prepared (1 - 1) = Some 1 ∧
  rd sample_prepared 1 = Some 5 ∧
  rd sample_prepared (12 - 1) = Some 9 ∧
  int_key 1 ≤ int_key 5 ∧ int_key 5 ≤ int_key 9 ∧
  ∃ i j m',
    run (partition_scan int_key 1 12) sample_prepared = Some ((i, j), m') ∧
    partitioned int_key 5 (1 - 1) 12 i j (cells m') ∧
    rearranged 1 (12 - 2) sample_prepared (cells m').
Proof.
  assert (H1 : 1 ≤ 1) by lia.
  assert (H2 : 1 + 2 ≤ 12) by lia.
  assert (H3 : 12 ≤ Z.of_nat (length sample_prepared)) by (vm_compute; discriminate).
  assert (H4 : rd sample_prepared (1 - 1) = Some 1) by reflexivity.
  assert (H5 : rd sample_prepared 1 = Some 5) by reflexivity.
  assert (H6 : rd sample_prepared (12 - 1) = Some 9) by reflexivity.
  assert (H7 : int_key 1 ≤ int_key 5) by (vm_compute; discriminate).
  assert (H8 : int_key 5 ≤ int_key 9) by (vm_compute; discriminate).
  repeat (split; [assumption|]).
  exact (partition_scan_partitions int_key 1 12 sample_prepared 1 5 9
           H1 H2 H3 H4 H5 H6 H7 H8).
Defined.

Lemma selection_sort_sorts_witness :
  (0 < length [9] + length [4; 3; 4; 1])%nat ∧
  ∃ seg' m',
    run (selection_sort int_key (Z.of_nat (length [4; 3; 4; 1]))
                        (Z.of_nat (length [9])))
        ([9] ++ [4; 3; 4; 1] ++ [0]) = Some (tt, m') ∧
    cells m' = [9] ++ seg' ++ [0] ∧
    nondescending int_key seg' ∧
    seg' ≡ₚ [4; 3; 4; 1].
Proof.
  assert (H : (0 < length [9] + length [4; 3; 4; 1])%nat) by (simpl; lia).
  split; [exact H|exact (selection_sort_sorts int_key [9] [4; 3; 4; 1] [0] H)].
Defined.

Lemma median3_touches_four_witness :
  1 ≤ 1 ∧ 2 ≤ 12 - 1 ∧ 12 ≤ Z.of_nat (length sample) ∧
  ∃ m',
    run (median3 int_key 1 12) sample = Some (tt, m') ∧
    Forall (λ k, k = 1 - 1 ∨ k = 1 ∨ k = ((1 - 1) + (12 - 1)) / 2 ∨ k = 12 - 1)
           (accessed m').
Proof.
  assert (H1 : 1 ≤ 1) by lia.
  assert (H2 : 2 ≤ 12 - 1) by lia.
  assert (H3 : 12 ≤ Z.of_nat (length sample)) by (vm_compute; discriminate).
  repeat (split; [assumption|]).
  exact (median3_touches_four int_key 1 12 sample H1 H2 H3).
Defined.

Lemma sort_stack_drained_witness :
  Z.of_nat (length sample) < sort_capacity ∧
  ∃ a' evs,
    sort int_key (2 * length sample + 1) (Z.of_nat (length sample)) sample
      = Some (a', evs) ∧
    occurrences Pop evs = occurrences Push evs ∧
    occurrences Push evs = occurrences Partition evs ∧
    occurrences Insertion evs = S (occurrences Partition evs).
Proof.
  assert (H : Z.of_nat (length sample) < sort_capacity)
    by (vm_compute; reflexivity).
  split; [exact H|exact (sort_stack_drained int_key sample H)].
Defined.

Lemma sort_keeps_subarray_bounded_witness :
  sort_reach int_key 1 (sort_init (Z.of_nat (length sample)) sample)
    = Some sample_pushed ∧
  arr sample_pushed ≡ₚ sample ∧
  1 ≤ l sample_pushed ∧ l sample_pushed ≤ ir sample_pushed + 1 ∧
  ir sample_pushed ≤ Z.of_nat (length sample) ∧
  cut int_key (arr sample_pushed) (l sample_pushed - 1) ∧
  cut int_key (arr sample_pushed) (ir sample_pushed).
Proof.
  assert (H : sort_reach int_key 1 (sort_init (Z.of_nat (length sample)) sample)
              = Some sample_pushed) by (vm_compute; reflexivity).
  split; [exact H|].
  exact (sort_keeps_subarray_bounded int_key sample 1 sample_pushed H).
Defined.

Lemma sort_leaves_rest_witness :
  Z.of_nat (length sample) < sort_capacity ∧
  ∃ a' evs,
    sort int_key (2 * length sample + 1) (Z.of_nat (length sample))
         (sample ++ [-7; 100; -7])
      = Some (a' ++ [-7; 100; -7], evs) ∧
    nondescending int_key a' ∧ a' ≡ₚ sample.
Proof.
  assert (H : Z.of_nat (length sample) < sort_capacity)
    by (vm_compute; reflexivity).
  split; [exact H|exact (sort_leaves_rest int_key [-7; 100; -7] sample H)].
Defined.

Lemma memcpy_setStats_measures_witness :
  0 < 12 ∧ 1 ≠ 0 ∧ 0 ≤ 11 < 2 ^ 32 ∧
  MemcpyStats.setStats 12 1 (wrap32 4294967290) 0
    = Some (wrap32 4294967290, [UartInit; Started]) ∧
  MemcpyStats.setStats 12 0 (wrap32 (4294967290 + 11)) (wrap32 4294967290)
    = Some (wrap32 4294967290,
            [Finished; CyclesElapsed 11; TimeElapsed (11 / 12)]).
Proof.
  assert (H1 : 0 < 12) by lia.
  assert (H2 : 1 ≠ 0) by lia.
  assert (H3 : 0 ≤ 11 < 2 ^ 32) by (split; vm_compute; [discriminate|reflexivity]).
  repeat (split; [assumption|]).
  exact (memcpy_setStats_measures 12 1 4294967290 11 0 H1 H2 H3).
Defined.

Lemma dhrystone_setStats_measures_witness :
  let g := DhrystoneStats.Globals 0 0 0 in
  1 ≠ 0 ∧ 0 ≤ 11 < 2 ^ 32 ∧
  let g1 := (DhrystoneStats.setStats 1 (wrap32 4294967290) g).1 in
  let g2 := (DhrystoneStats.setStats 0 (wrap32 (4294967290 + 11)) g1).1 in
  DhrystoneStats.start_cycles g1 = wrap32 4294967290 ∧
  DhrystoneStats.elapsed_cycles g1 = DhrystoneStats.elapsed_cycles g ∧
  DhrystoneStats.end_cycles g1 = DhrystoneStats.end_cycles g ∧
  DhrystoneStats.start_cycles g2 = wrap32 4294967290 ∧
  DhrystoneStats.elapsed_cycles g2 = 11 ∧
  DhrystoneStats.end_cycles g2 = wrap32 (4294967290 + 11).
Proof.
  intros g.
  assert (H2 : 1 ≠ 0) by lia.
  assert (H3 : 0 ≤ 11 < 2 ^ 32) by (split; vm_compute; [discriminate|reflexivity]).
  split; [exact H2|]. split; [exact H3|].
  exact (dhrystone_setStats_measures 1 4294967290 11 g H2 H3).
Defined.

Lemma sort_short_is_stable_witness :
  Z.of_nat (length sample_ten) ≤ INSERTION_THRESHOLD ∧
  ∃ a',
    sort int_key 1 (Z.of_nat (length sample_ten)) sample_ten
      = Some (a', [Insertion]) ∧
    nondescending int_key a' ∧ a' ≡ₚ sample_ten ∧
    equals_keep_order int_key sample_ten a'.
Proof.
  assert (H : Z.of_nat (length sample_ten) ≤ INSERTION_THRESHOLD)
    by (vm_compute; discriminate).
  split; [exact H|exact (sort_short_is_stable int_key sample_ten 0 H)].
Defined.

Lemma equal_elements_overflow_witness :
  sort_capacity ≤ sort_capacity ∧
  (∃ s,
     sort_reach int_key 24
       (sort_init sort_capacity (replicate (Z.to_nat sort_capacity) 0)) = Some s ∧
     stackp s = 48 ∧ INSERTION_THRESHOLD ≤ ir s - l s ∧
     stack_wr (stack s) (stackp s + 2) (ir s) = None ∧
     sort_step int_key s = None) ∧
  ∀ fuel,
    sort int_key fuel sort_capacity (replicate (Z.to_nat sort_capacity) 0) = None.
Proof.
  assert (H : sort_capacity ≤ sort_capacity) by lia.
  split; [exact H|exact (equal_elements_overflow int_key 0 sort_capacity H)].
Defined.
